(** * KaseyDraw: the lottery draw page (src/LotteryDrawPage.jsx)

    A shallow embedding of the [LotteryDrawPage] component: its five state
    variables, the handlers [roll], [reset] and the two bound editors, and the
    interval callback that [roll] installs, together with the part of the
    JavaScript number semantics these handlers rely on (unary plus on a
    string, [Math.max], [Math.floor], [*] and [+]).

    Modelling decisions.
    - A JavaScript number is a rational, NaN, or one of the two infinities.
      The coercion of a string rounds to the nearest binary64 value (and to
      an infinity on overflow) as the language does; products and sums are
      exact, so the rounding of [*] and [+] is abstracted, and the sign of
      zero is not tracked (nothing in the component observes it).
    - A JavaScript string is a list of UTF-16 code units.
    - [Math.random()] is an input of the interval callback: a rational [rnd]
      with [0 <= rnd < 1].
    - Every handler invocation sees the state of the latest render (React
      re-renders between two events), and the interval callback sees the
      variables captured when [roll] ran.
    - The browser's interval table is a finite map from timer ids to the
      closure of the installed callback; a ghost log records the externally
      visible effects.
    - Text entered into an [<input type="number">] reaches [onChange] after
      the value sanitization of that input type: text that is no valid
      floating-point number arrives as the empty string. *)

From Stdlib Require Import QArith Qround Qreduction Qcanon Qminmax Qabs.
From Stdlib Require Import Qpower.
From Stdlib Require Import ZArith NArith Lia.
From Stdlib Require Import String Ascii List.
From stdpp Require Import gmap.
Import ListNotations.

(** ** JavaScript numbers *)

Module JS.

Inductive number : Type :=
| Num (q : Q)
| NaN
| PosInf
| NegInf.

Definition jsstring := list N.

(** A string literal of the source, as code units. *)
Definition lit (s : string) : jsstring :=
  List.map N_of_ascii (list_ascii_of_string s).

Definition Qlt_bool (a b : Q) : bool := negb (Qle_bool b a).

(** [a < b] on numbers: false as soon as one side is NaN. *)
Definition js_lt (a b : number) : bool :=
  match a, b with
  | NaN, _ | _, NaN => false
  | _, NegInf => false
  | NegInf, _ => true
  | PosInf, _ => false
  | _, PosInf => true
  | Num x, Num y => Qlt_bool x y
  end.

(** [a <= b] on numbers. *)
Definition js_le (a b : number) : bool :=
  match a, b with
  | NaN, _ | _, NaN => false
  | NegInf, _ => true
  | _, NegInf => false
  | _, PosInf => true
  | PosInf, _ => false
  | Num x, Num y => Qle_bool x y
  end.

(** [a >= b] on numbers. *)
Definition js_ge (a b : number) : bool := js_le b a.

Definition Qsign_pos (q : Q) : bool := Qlt_bool 0 q.
Definition Qis_zero (q : Q) : bool := Qeq_bool q 0.

(** [a * b] (Number::multiply). *)
Definition js_mul (a b : number) : number :=
  match a, b with
  | NaN, _ | _, NaN => NaN
  | Num x, Num y => Num (Qred (x * y))
  | Num x, PosInf | PosInf, Num x =>
      if Qis_zero x then NaN else if Qsign_pos x then PosInf else NegInf
  | Num x, NegInf | NegInf, Num x =>
      if Qis_zero x then NaN else if Qsign_pos x then NegInf else PosInf
  | PosInf, PosInf | NegInf, NegInf => PosInf
  | PosInf, NegInf | NegInf, PosInf => NegInf
  end.

(** [a + b] (Number::add). *)
Definition js_add (a b : number) : number :=
  match a, b with
  | NaN, _ | _, NaN => NaN
  | Num x, Num y => Num (Qred (x + y))
  | PosInf, NegInf | NegInf, PosInf => NaN
  | PosInf, _ | _, PosInf => PosInf
  | NegInf, _ | _, NegInf => NegInf
  end.

(** [Math.floor(x)]. *)
Definition Math_floor (x : number) : number :=
  match x with
  | Num q => Num (inject_Z (Qfloor q))
  | other => other
  end.

(** [Math.max(...args)]: scan with a running [highest] that starts at
    -Infinity; a NaN argument makes the result NaN. *)
Fixpoint Math_max_from (highest : number) (coerced : list number) : number :=
  match coerced with
  | [] => highest
  | NaN :: _ => NaN
  | n :: rest => Math_max_from (if js_lt highest n then n else highest) rest
  end.

Definition Math_max (args : list number) : number :=
  Math_max_from NegInf args.

(** *** Unary plus on a string (StringToNumber) *)

Definition isStrWhiteSpaceChar (c : N) : bool :=
  existsb (N.eqb c)
    [9; 10; 11; 12; 13; 32; 160; 5760; 8232; 8233; 8239; 8287; 12288; 65279]%N
  || ((8192 <=? c) && (c <=? 8202))%N.

Fixpoint trimStart (s : jsstring) : jsstring :=
  match s with
  | c :: r => if isStrWhiteSpaceChar c then trimStart r else s
  | [] => []
  end.

Definition trimString (s : jsstring) : jsstring :=
  rev (trimStart (rev (trimStart s))).

(** The value of [c] as a digit in the given radix, if it is one. *)
Definition digit_of (radix c : N) : option N :=
  let v :=
    if ((48 <=? c) && (c <=? 57))%N then Some (c - 48)%N
    else if ((97 <=? c) && (c <=? 122))%N then Some (c - 97 + 10)%N
    else if ((65 <=? c) && (c <=? 90))%N then Some (c - 65 + 10)%N
    else None in
  match v with
  | Some d => if (d <? radix)%N then Some d else None
  | None => None
  end.

(** The longest prefix of digits, as digit values, and what follows it. *)
Fixpoint span_digits (radix : N) (s : jsstring) : list N * jsstring :=
  match s with
  | c :: r =>
      match digit_of radix c with
      | Some d => let (ds, rest) := span_digits radix r in (d :: ds, rest)
      | None => ([], s)
      end
  | [] => ([], [])
  end.

Definition digits_value (radix : N) (ds : list N) : N :=
  fold_left (fun acc d => acc * radix + d)%N ds 0%N.

Definition is_nil {A} (l : list A) : bool :=
  match l with [] => true | _ => false end.

Definition code_eqb (a b : jsstring) : bool :=
  bool_decide (a = b).

(** ExponentPart, optional: [e] or [E], an optional sign, at least one
    digit, and nothing after it. *)
Definition parse_exponent (s : jsstring) : option Z :=
  match s with
  | [] => Some 0%Z
  | c :: r =>
      if ((c =? 101) || (c =? 69))%N then
        let (neg, r1) :=
          match r with
          | s0 :: r' =>
              if (s0 =? 43)%N then (false, r')
              else if (s0 =? 45)%N then (true, r') else (false, r)
          | [] => (false, r)
          end in
        match span_digits 10 r1 with
        | (d :: ds, []) =>
            let e := Z.of_N (digits_value 10 (d :: ds)) in
            Some (if neg then (- e)%Z else e)
        | _ => None
        end
      else None
  end.

(** The mathematical value [n * 10^e]. *)
Definition scale10 (n : N) (e : Z) : Q :=
  Qred (inject_Z (Z.of_N n) * Qpower (inject_Z 10) e).

(** StrUnsignedDecimalLiteral: [Infinity], [d.d? e?], [.d e?] or [d e?]. *)
Definition parse_unsigned_decimal (s : jsstring) : option number :=
  if code_eqb s (lit "Infinity") then Some PosInf
  else
    let (d1, r1) := span_digits 10 s in
    let '(d2, r2, ok) :=
      match r1 with
      | c :: r =>
          if (c =? 46)%N then
            let (d2, r2) := span_digits 10 r in
            (d2, r2, negb (is_nil d1 && is_nil d2))
          else ([], r1, negb (is_nil d1))
      | [] => ([], r1, negb (is_nil d1))
      end in
    if ok then
      match parse_exponent r2 with
      | Some e =>
          Some (Num (scale10 (digits_value 10 (d1 ++ d2))
                             (e - Z.of_nat (List.length d2))))
      | None => None
      end
    else None.

Definition js_neg (x : number) : number :=
  match x with
  | Num q => Num (Qred (- q))
  | NaN => NaN
  | PosInf => NegInf
  | NegInf => PosInf
  end.

(** StrDecimalLiteral: an optional sign before the unsigned literal. *)
Definition parse_decimal (s : jsstring) : option number :=
  match s with
  | c :: r =>
      if (c =? 43)%N then parse_unsigned_decimal r
      else if (c =? 45)%N then option_map js_neg (parse_unsigned_decimal r)
      else parse_unsigned_decimal s
  | [] => None
  end.

(** NonDecimalIntegerLiteral: [0x], [0o] or [0b] and at least one digit. *)
Definition parse_non_decimal (s : jsstring) : option number :=
  match s with
  | z :: p :: r =>
      let radix :=
        if ((p =? 120) || (p =? 88))%N then Some 16%N
        else if ((p =? 111) || (p =? 79))%N then Some 8%N
        else if ((p =? 98) || (p =? 66))%N then Some 2%N
        else None in
      match (z =? 48)%N, radix with
      | true, Some b =>
          match span_digits b r with
          | (d :: ds, []) =>
              Some (Num (inject_Z (Z.of_N (digits_value b (d :: ds)))))
          | _ => None
          end
      | _, _ => None
      end
  | _ => None
  end.

(** *** The Number value of a mathematical value *)

(** The integer nearest to [q], the even one when two are equally near. *)
Definition round_half_even (q : Q) : Z :=
  let f := Qfloor q in
  match (q - inject_Z f ?= 1 # 2)%Q with
  | Lt => f
  | Gt => (f + 1)%Z
  | Eq => if Z.even f then f else (f + 1)%Z
  end.

(** For [q > 0], the [e] with [2^e <= q < 2^(e+1)]. *)
Definition floor_log2 (q : Q) : Z :=
  let e := (Z.log2 (Qnum q) - Z.log2 (Z.pos (Qden q)))%Z in
  if Qle_bool (Qpower 2%Q e) q then e else (e - 1)%Z.

(** The binary64 value nearest to [q], ties to the even significand: 53
    significant bits, exponents from -1022 (below that the spacing stays
    [2^-1074]), and an infinity once the rounded magnitude reaches
    [2^1024]. *)
Definition binary64 (q : Q) : number :=
  if Qeq_bool q 0 then Num 0
  else
    let m := Qabs q in
    let e := Z.max (floor_log2 m) (-1022) in
    let ulp := Qpower 2%Q (e - 52) in
    let r := Qred (inject_Z (round_half_even (m / ulp)) * ulp)%Q in
    if Qle_bool (Qpower 2%Q 1024) r
    then (if Qlt_bool 0 q then PosInf else NegInf)
    else Num (if Qlt_bool 0 q then r else Qred (- r)%Q).

(** The Number value of a parsed literal. *)
Definition to_Number (n : number) : number :=
  match n with
  | Num q => binary64 q
  | other => other
  end.

(** [+s] for a string [s]: white space is trimmed, the empty string is 0,
    a numeric literal gives the Number value of its mathematical value, and
    a string that is no numeric literal is NaN. *)
Definition ToNumber (s : jsstring) : number :=
  match trimString s with
  | [] => Num 0
  | t =>
      match parse_non_decimal t with
      | Some n => to_Number n
      | None =>
          match parse_decimal t with
          | Some n => to_Number n
          | None => NaN
          end
      end
  end.

End JS.

Import JS.

(** ** The component *)

Module Page.

(** Animation timing (lines 32-33). *)
Definition FLASH_COUNT : Z := 50.
Definition FLASH_INTERVAL : Z := 100.

(** The five [useState] variables; [None] is [null]. *)
Record State : Type := mkState {
  tableMax : number;
  seatMax : number;
  table : option number;
  seat : option number;
  rolling : bool
}.

(** What the interval callback of [roll] closes over: the argument [type],
    the bounds of the render in which [roll] ran, and the local counter
    [flashes], which the callback itself decrements. *)
Record Closure : Type := mkClosure {
  type : string;
  c_tableMax : number;
  c_seatMax : number;
  flashes : Z
}.

(** Effects on the outside of the component; [Fired] is a ghost entry that
    marks one run of the interval callback. *)
Inductive Effect : Type :=
| SetInterval (id : nat) (delay : Z)
| Fired (id : nat)
| ClearInterval (id : nat)
| Confetti.

Record World : Type := mkWorld {
  ui : State;
  intervals : gmap nat Closure;
  next_id : nat;
  log : list Effect
}.

(** *** A state monad over the world *)

Definition M (A : Type) : Type := World -> A * World.

Definition ret {A} (a : A) : M A := fun w => (a, w).

Definition bind {A B} (m : M A) (k : A -> M B) : M B :=
  fun w => let (a, w') := m w in k a w'.

Notation "x <- c1 ;; c2" := (bind c1 (fun x => c2))
  (at level 100, c1 at next level, right associativity).
Notation "c1 ;; c2" := (bind c1 (fun _ => c2))
  (at level 100, right associativity).

Definition modify_ui (f : State -> State) : M unit :=
  fun w => (tt, mkWorld (f (ui w)) (intervals w) (next_id w) (log w)).

Definition emit (e : Effect) : M unit :=
  fun w => (tt, mkWorld (ui w) (intervals w) (next_id w) (log w ++ [e])).

(** The setters returned by [useState]. *)
Definition setTableMax (v : number) : M unit :=
  modify_ui (fun s => mkState v (seatMax s) (table s) (seat s) (rolling s)).
Definition setSeatMax (v : number) : M unit :=
  modify_ui (fun s => mkState (tableMax s) v (table s) (seat s) (rolling s)).
Definition setTable (v : option number) : M unit :=
  modify_ui (fun s => mkState (tableMax s) (seatMax s) v (seat s) (rolling s)).
Definition setSeat (v : option number) : M unit :=
  modify_ui (fun s => mkState (tableMax s) (seatMax s) (table s) v (rolling s)).
Definition setRolling (v : bool) : M unit :=
  modify_ui (fun s => mkState (tableMax s) (seatMax s) (table s) (seat s) v).

(** [setInterval(callback, delay)]: registers the callback under a fresh id. *)
Definition setInterval (c : Closure) (delay : Z) : M nat :=
  fun w =>
    let id := next_id w in
    (id, mkWorld (ui w) (<[id := c]> (intervals w)) (S id)
                 (log w ++ [SetInterval id delay])).

(** [clearInterval(id)]. *)
Definition clearInterval (id : nat) : M unit :=
  fun w =>
    (tt, mkWorld (ui w) (delete id (intervals w)) (next_id w)
                 (log w ++ [ClearInterval id])).

(** [confetti({ particleCount: 160, spread: 80, origin: { y: 0.6 } })]. *)
Definition confetti : M unit := emit Confetti.

(** The assignment [flashes -= 1] to the captured counter of timer [id]. *)
Definition setFlashes (id : nat) (v : Z) : M unit :=
  fun w =>
    (tt, mkWorld (ui w)
           (alter (fun c => mkClosure (type c) (c_tableMax c) (c_seatMax c) v)
                  id (intervals w))
           (next_id w) (log w)).

(** *** The handlers *)

(** Line 53: [Math.floor(Math.random() * max) + 1]. *)
Definition roll_value (rnd : Q) (max : number) : number :=
  js_add (Math_floor (js_mul (Num rnd) max)) (Num 1).

(** Lines 51-66: the callback given to [setInterval]. [c] is its closure,
    [id] the timer it was registered under, [rnd] what [Math.random()]
    returns in this run. *)
Definition interval_callback (id : nat) (c : Closure) (rnd : Q) : M unit :=
  let max := if String.eqb (type c) "table" then c_tableMax c
             else c_seatMax c in
  let value := roll_value rnd max in
  (if String.eqb (type c) "table" then setTable (Some value)
   else setSeat (Some value)) ;;
  let flashes' := (flashes c - 1)%Z in
  setFlashes id flashes' ;;
  if (flashes' <=? 0)%Z then
    clearInterval id ;;
    setRolling false ;;
    confetti
  else ret tt.

(** Lines 46-67: [roll(type)], run in a render whose state is [cur]. *)
Definition roll (cur : State) (type : string) : M unit :=
  if rolling cur then ret tt
  else
    setRolling true ;;
    _ <- setInterval (mkClosure type (tableMax cur) (seatMax cur) FLASH_COUNT)
                     FLASH_INTERVAL ;;
    ret tt.

(** Lines 69-72. *)
Definition reset : M unit :=
  setTable None ;;
  setSeat None.

(** Line 86: [(e) => setTableMax(Math.max(1, +e.target.value))]. *)
Definition onChange_tableMax (e_target_value : jsstring) : M unit :=
  setTableMax (Math_max [Num 1; ToNumber e_target_value]).

(** Line 97: [(e) => setSeatMax(Math.max(1, +e.target.value))]. *)
Definition onChange_seatMax (e_target_value : jsstring) : M unit :=
  setSeatMax (Math_max [Num 1; ToNumber e_target_value]).

(** *** Events *)

(** What can happen to a mounted page: a call of [roll], a click on reset,
    a change of one of the two inputs, or timer [id] firing. *)
Inductive Event : Type :=
| Roll (type : string)
| Reset
| TableMaxChange (value : jsstring)
| SeatMaxChange (value : jsstring)
| Tick (id : nat) (rnd : Q).

(** The handler an event runs. A handler sees the state of the current
    render, [ui w]; the interval callback sees its closure; a timer that is
    not installed does not fire. *)
Definition dispatch (e : Event) : M unit :=
  fun w =>
    match e with
    | Roll ty => roll (ui w) ty w
    | Reset => reset w
    | TableMaxChange v => onChange_tableMax v w
    | SeatMaxChange v => onChange_seatMax v w
    | Tick id rnd =>
        match intervals w !! id with
        | Some c => (emit (Fired id) ;; interval_callback id c rnd) w
        | None => (tt, w)
        end
    end.

Definition step (e : Event) (w : World) : World := snd (dispatch e w).

(** The world after a sequence of events, oldest first. *)
Fixpoint run (evs : list Event) (w : World) : World :=
  match evs with
  | [] => w
  | e :: rest => run rest (step e w)
  end.

(** Lines 37-43: the state at mount; no timer is installed yet. *)
Definition init_state : State :=
  mkState (Num 30) (Num 10) None None false.

Definition init : World := mkWorld init_state ∅ 1%nat [].

(** A sample [Math.random()] can return. *)
Definition unit_sample (rnd : Q) : Prop := (0 <= rnd /\ rnd < 1)%Q.

End Page.

Import Page.

(** ** Vocabulary of the statements *)

(** The result variable a draw of the given [type] writes, and the bound it
    samples against (lines 52 and 54). *)
Definition result_of (ty : string) (s : State) : option number :=
  if String.eqb ty "table" then table s else seat s.

Definition bound_of (ty : string) (s : State) : number :=
  if String.eqb ty "table" then tableMax s else seatMax s.

Definition captured_bound (c : Closure) : number :=
  if String.eqb (type c) "table" then c_tableMax c else c_seatMax c.

(** The invariant of section 3 of the specification on the two bounds. *)
Definition bounds_ok (s : State) : Prop :=
  js_ge (tableMax s) (Num 1) = true /\ js_ge (seatMax s) (Num 1) = true.

(** [lo <= v <= hi] as the program would test it. *)
Definition in_range (lo hi v : number) : bool :=
  js_le lo v && js_le v hi.

(** The result variable a draw of the given [type] does not write. *)
Definition other_result_of (ty : string) (s : State) : option number :=
  if String.eqb ty "table" then seat s else table s.

(** The state after [setTable(v)] or [setSeat(v)], as [type] selects. *)
Definition write_result (ty : string) (v : number) (s : State) : State :=
  if String.eqb ty "table"
  then mkState (tableMax s) (seatMax s) (Some v) (seat s) (rolling s)
  else mkState (tableMax s) (seatMax s) (table s) (Some v) (rolling s).

Definition stop_rolling (s : State) : State :=
  mkState (tableMax s) (seatMax s) (table s) (seat s) false.

(** The closure after [flashes] has been set to [f]. *)
Definition with_flashes (f : Z) (c : Closure) : Closure :=
  mkClosure (type c) (c_tableMax c) (c_seatMax c) f.

(** At most one animation: a timer is installed exactly while [rolling]. *)
Definition single_timer (w : World) : Prop :=
  if rolling (ui w)
  then exists id c, intervals w = {[ id := c ]}
  else intervals w = ∅.

(** A bound the editors can have stored: NaN, or at least 1. *)
Definition bound_wf (m : number) : Prop :=
  m = NaN \/ js_ge m (Num 1) = true.

Definition bounds_wf (w : World) : Prop :=
  bound_wf (tableMax (ui w)) /\ bound_wf (seatMax (ui w))
  /\ forall id c, intervals w !! id = Some c ->
       bound_wf (c_tableMax c) /\ bound_wf (c_seatMax c).

(** A world in which a table draw is running whose closure captured the
    bound [m] for both results. *)
Definition rolling_with_bound (m : number) : World :=
  mkWorld (mkState m m None None true)
          {[ 1%nat := mkClosure "table" m m FLASH_COUNT ]}
          2%nat [SetInterval 1 FLASH_INTERVAL].

(** How often timer [id] fires in a list of events. *)
Fixpoint ticks_in (id : nat) (evs : list Event) : nat :=
  match evs with
  | [] => 0
  | Tick id' _ :: rest =>
      if Nat.eqb id' id then S (ticks_in id rest) else ticks_in id rest
  | _ :: rest => ticks_in id rest
  end.

(** Counting entries of the effect log. *)
Fixpoint count (p : Effect -> bool) (l : list Effect) : nat :=
  match l with
  | [] => 0
  | e :: rest => (if p e then 1 else 0) + count p rest
  end.

Definition is_fired (id : nat) (e : Effect) : bool :=
  match e with Fired i => Nat.eqb i id | _ => false end.
Definition is_cleared (id : nat) (e : Effect) : bool :=
  match e with ClearInterval i => Nat.eqb i id | _ => false end.
Definition is_start (e : Effect) : bool :=
  match e with SetInterval _ _ => true | _ => false end.
Definition is_clear (e : Effect) : bool :=
  match e with ClearInterval _ => true | _ => false end.
Definition is_confetti (e : Effect) : bool :=
  match e with Confetti => true | _ => false end.

(** Bookkeeping that holds in every state of a mounted page: ids not handed
    out yet are unused, every started draw is either in progress or has
    fired its confetti, and the confetti is fired as often as a timer is
    cleared. *)
Record ledger (w : World) : Prop := mkLedger {
  ledger_single : single_timer w;
  ledger_fresh : forall id, (next_id w <= id)%nat ->
    intervals w !! id = None
    /\ count (is_fired id) (log w) = 0%nat
    /\ count (is_cleared id) (log w) = 0%nat;
  ledger_started :
    count is_start (log w)
    = (count is_confetti (log w) + size (intervals w))%nat;
  ledger_cleared : count is_clear (log w) = count is_confetti (log w)
}.

(** ** The rendered page *)

(** Lines 12-29 and 74-179, reduced to what the user can act on or read: the
    two inputs, the two result displays and the three buttons. Static markup
    (headings, labels, icons, animation wrappers, the footer) is left out. *)
Module View.

(** A rendered [<button>]: [disabled] and [onClick] reach it through
    [{...props}]. *)
Record ButtonElement : Type := mkButtonElement {
  className : string;
  disabled : bool;
  onClick : M unit
}.

(** The props [Button] is called with; [None] is a prop that is not
    passed. *)
Record ButtonProps : Type := mkButtonProps {
  p_className : option string;
  p_variant : option string;
  p_disabled : option bool;
  p_onClick : M unit
}.

(** A rendered [<input>] with its [type], [min] and [value] attributes. *)
Record InputElement : Type := mkInputElement {
  type : string;
  min : Z;
  value : number;
  onChange : jsstring -> M unit
}.

Record Page : Type := mkPage {
  tableMax_input : InputElement;
  seatMax_input : InputElement;
  table_display : option number;
  table_button : ButtonElement;
  seat_display : option number;
  seat_button : ButtonElement;
  reset_button : ButtonElement
}.

(** *** The value of a number input *)

Definition is_digit (c : N) : bool := ((48 <=? c) && (c <=? 57))%N.

Fixpoint skip_digits (s : jsstring) : jsstring :=
  match s with
  | c :: r => if is_digit c then skip_digits r else s
  | [] => []
  end.

Definition starts_with_digit (s : jsstring) : bool :=
  match s with
  | c :: _ => is_digit c
  | [] => false
  end.

(** Nothing, or [e] or [E], an optional [-] or [+], and one or more
    digits up to the end. *)
Definition valid_exponent (s : jsstring) : bool :=
  match s with
  | [] => true
  | c :: r =>
      ((c =? 101) || (c =? 69))%N
      && let r1 :=
           match r with
           | s0 :: r' => if ((s0 =? 45) || (s0 =? 43))%N then r' else r
           | [] => r
           end in
         starts_with_digit r1 && is_nil (skip_digits r1)
  end.

(** One or more digits, or [.] and one or more digits, or both in this
    order; then an optional exponent. *)
Definition valid_unsigned (s : jsstring) : bool :=
  match skip_digits s with
  | c :: r =>
      if (c =? 46)%N
      then starts_with_digit r && valid_exponent (skip_digits r)
      else starts_with_digit s && valid_exponent (c :: r)
  | [] => starts_with_digit s
  end.

(** A valid floating-point number of the HTML standard: an optional [-]
    before the unsigned part. *)
Definition valid_floating_point_number (s : jsstring) : bool :=
  match s with
  | c :: r => if (c =? 45)%N then valid_unsigned r else valid_unsigned s
  | [] => false
  end.

(** The value sanitization algorithm of [type="number"]: a value that is no
    valid floating-point number becomes the empty string. (The page renders
    no input of another type; for those the text is passed on as it is.) *)
Definition value_sanitization (ty : string) (text : jsstring) : jsstring :=
  if String.eqb ty "number"
  then (if valid_floating_point_number text then text else [])
  else text.

(** The user edits the field to [text]: the element's value is the
    sanitized text, and [onChange] reads it as [e.target.value]. *)
Definition change (i : InputElement) (text : jsstring) : M unit :=
  onChange i (value_sanitization (type i) text).

Section Render.

(** The text a template literal gives for [variants[k]] when [k] is not one
    of the two keys of the literal: what the runtime finds for [k] on
    [Object.prototype], rendered as a string (["undefined"] when there is
    nothing). *)
Variable inherited_text : string -> string.

Definition base : string :=
  "px-5 py-2 rounded-xl font-medium transition-transform active:scale-95 disabled:opacity-50".

(** Lines 15-20, [variants[variant]] inside the template literal. *)
Definition variants (variant : string) : string :=
  if String.eqb variant "primary"
  then "bg-white/20 hover:bg-white/30 backdrop-blur text-white shadow-md"
  else if String.eqb variant "secondary"
  then "bg-white text-indigo-700 hover:bg-indigo-100 shadow-md"
  else inherited_text variant.

(** Lines 12-29: [Button], with the defaults [className = ""] and
    [variant = "primary"]. *)
Definition Button (props : ButtonProps) : ButtonElement :=
  let className :=
    match p_className props with Some c => c | None => EmptyString end in
  let variant :=
    match p_variant props with Some v => v | None => "primary"%string end in
  mkButtonElement
    (base ++ " " ++ variants variant ++ " " ++ className)%string
    (match p_disabled props with Some b => b | None => false end)
    (p_onClick props).

(** Lines 74-179: what a render with state [s] returns. The handlers are
    the closures of this render. *)
Definition LotteryDrawPage (s : State) : Page :=
  mkPage
    (mkInputElement "number" 1 (tableMax s) onChange_tableMax)
    (mkInputElement "number" 1 (seatMax s) onChange_seatMax)
    (table s)
    (Button (mkButtonProps (Some "mt-8 w-40 text-lg"%string) None
                           (Some (rolling s)) (roll s "table")))
    (seat s)
    (Button (mkButtonProps (Some "mt-8 w-40 text-lg"%string) None
                           (Some (rolling s)) (roll s "seat")))
    (Button (mkButtonProps
               (Some "mt-12 flex items-center gap-2 px-6 py-3"%string)
               (Some "secondary"%string) None reset)).

(** A click: the browser delivers none to a disabled button. *)
Definition click (b : ButtonElement) : M unit :=
  if disabled b then ret tt else onClick b.

(** What the user and the browser can do to the rendered page. *)
Inductive Action : Type :=
| ClickTable
| ClickSeat
| ClickReset
| TypeTableMax (text : jsstring)
| TypeSeatMax (text : jsstring)
| TimerFires (id : nat) (rnd : Q).

Definition perform (a : Action) (w : World) : World :=
  let page := LotteryDrawPage (ui w) in
  match a with
  | ClickTable => snd (click (table_button page) w)
  | ClickSeat => snd (click (seat_button page) w)
  | ClickReset => snd (click (reset_button page) w)
  | TypeTableMax text => snd (change (tableMax_input page) text w)
  | TypeSeatMax text => snd (change (seatMax_input page) text w)
  | TimerFires id rnd => step (Tick id rnd) w
  end.

Fixpoint perform_all (acts : list Action) (w : World) : World :=
  match acts with
  | [] => w
  | a :: rest => perform_all rest (perform a w)
  end.

End Render.

(** The handler call behind an action that is delivered; typed text
    arrives sanitized. *)
Definition event_of (a : Action) : Event :=
  match a with
  | ClickTable => Roll "table"
  | ClickSeat => Roll "seat"
  | ClickReset => Reset
  | TypeTableMax text => TableMaxChange (value_sanitization "number" text)
  | TypeSeatMax text => SeatMaxChange (value_sanitization "number" text)
  | TimerFires id rnd => Tick id rnd
  end.

End View.

(** ** Further vocabulary *)

(** The counter of every installed timer is between 1 and [FLASH_COUNT],
    and the timer has fired as often as the counter has gone down. *)
Definition flashes_inv (w : World) : Prop :=
  forall id c, intervals w !! id = Some c ->
    (1 <= flashes c <= FLASH_COUNT)%Z
    /\ Z.of_nat (count (is_fired id) (log w)) = (FLASH_COUNT - flashes c)%Z.

Definition is_finite (x : number) : bool :=
  match x with Num _ => true | _ => false end.

(** An editor input that does not coerce to NaN. *)
Definition input_not_NaN (e : Event) : Prop :=
  match e with
  | TableMaxChange v | SeatMaxChange v => ToNumber v <> NaN
  | _ => True
  end.

(** Editor inputs coerce to finite numbers and samples are in [0, 1). *)
Definition well_behaved (e : Event) : Prop :=
  match e with
  | TableMaxChange v | SeatMaxChange v => is_finite (ToNumber v) = true
  | Tick _ rnd => unit_sample rnd
  | _ => True
  end.

Definition positive_integer (x : number) : Prop :=
  exists v : Z, x = Num (inject_Z v) /\ (1 <= v)%Z.

Definition result_ok (r : option number) : Prop :=
  match r with
  | None => True
  | Some x => positive_integer x
  end.

Definition finite_bound (m : number) : Prop :=
  exists q : Q, m = Num q /\ (1 <= q)%Q.

(** Bounds, captured bounds and results of a page that only saw
    well-behaved events. *)
Definition tidy (w : World) : Prop :=
  finite_bound (tableMax (ui w)) /\ finite_bound (seatMax (ui w))
  /\ (forall id c, intervals w !! id = Some c ->
        finite_bound (c_tableMax c) /\ finite_bound (c_seatMax c))
  /\ result_ok (table (ui w)) /\ result_ok (seat (ui w)).

(** Both bounds and every captured bound are at least 1. *)
Definition all_bounds_ge_1 (w : World) : Prop :=
  bounds_ok (ui w)
  /\ forall id c, intervals w !! id = Some c ->
       js_ge (c_tableMax c) (Num 1) = true
       /\ js_ge (c_seatMax c) (Num 1) = true.

(** The code units of a string of decimal digits, given the digit values. *)
Definition decimal (ds : list N) : jsstring :=
  List.map (fun d => (48 + d)%N) ds.

Definition all_digits (ds : list N) : Prop :=
  Forall (fun d => (d < 10)%N) ds.

(** The characters a valid floating-point number is made of. *)
Definition fp_char (c : N) : bool :=
  View.is_digit c
  || ((c =? 43) || (c =? 45) || (c =? 46) || (c =? 69) || (c =? 101))%N.

(** ** Sample evaluations *)

Example ToNumber_empty : ToNumber (lit "") = Num 0.
Proof. reflexivity. Qed.
Example ToNumber_12 : ToNumber (lit " 12 ") = Num 12.
Proof. reflexivity. Qed.
Example ToNumber_neg : ToNumber (lit "-3.50") = Num (-7 # 2).
Proof. reflexivity. Qed.
Example ToNumber_exp : ToNumber (lit "1.5e1") = Num 15.
Proof. reflexivity. Qed.
Example ToNumber_expn :
  ToNumber (lit ".5E-1") = Num (3602879701896397 # 72057594037927936).
Proof. reflexivity. Qed.
Example ToNumber_hex : ToNumber (lit "0x1F") = Num 31.
Proof. reflexivity. Qed.
Example ToNumber_abc : ToNumber (lit "abc") = NaN.
Proof. reflexivity. Qed.
Example ToNumber_dot : ToNumber (lit ".") = NaN.
Proof. reflexivity. Qed.
Example ToNumber_12px : ToNumber (lit "12px") = NaN.
Proof. reflexivity. Qed.
Example ToNumber_inf : ToNumber (lit "-Infinity") = NegInf.
Proof. reflexivity. Qed.
Example ToNumber_neghex : ToNumber (lit "-0x10") = NaN.
Proof. reflexivity. Qed.
Example ToNumber_5dot : ToNumber (lit "5.") = Num 5.
Proof. reflexivity. Qed.
Example ToNumber_e5 : ToNumber (lit "e5") = NaN.
Proof. reflexivity. Qed.
Example ToNumber_1e : ToNumber (lit "1e") = NaN.
Proof. reflexivity. Qed.
Example Math_max_clamp : Math_max [Num 1; Num (-4)] = Num 1.
Proof. reflexivity. Qed.
Example Math_max_nan : Math_max [Num 1; NaN] = NaN.
Proof. reflexivity. Qed.

Example demo_tick :
  table (ui (run [Roll "table"; Tick 1 (9 # 10)] init)) = Some (Num 28).
Proof. reflexivity. Qed.

Example demo_stale_bound :
  table (ui (run [Roll "table"; TableMaxChange (lit "5"); Tick 1 (9 # 10)] init))
  = Some (Num 28).
Proof. reflexivity. Qed.

Example demo_fraction :
  ui (run [TableMaxChange (lit "1.5"); Roll "table"; Tick 1 (3 # 4)] init)
  = mkState (Num (3 # 2)) (Num 10) (Some (Num 2)) None true.
Proof. reflexivity. Qed.

(** ** Facts about the number operations *)

Section Numbers.

Lemma Qlt_bool_iff (a b : Q) : Qlt_bool a b = true <-> (a < b)%Q.
Proof.
  unfold Qlt_bool. rewrite negb_true_iff, <- not_true_iff_false, Qle_bool_iff.
  split; [apply Qnot_le_lt | apply Qlt_not_le].
Qed.

Lemma Qred_inject_Z (z : Z) : Qred (inject_Z z) = inject_Z z.
Proof. apply Qred_identity. simpl. apply Z.gcd_1_r. Qed.

Lemma Qred_succ (z : Z) : Qred (inject_Z z + 1) = inject_Z (z + 1).
Proof.
  rewrite <- (Qred_inject_Z (z + 1)). apply Qred_complete.
  rewrite inject_Z_plus. reflexivity.
Qed.

(** The value of a tick is the integer [floor (rnd * max) + 1]. *)
Lemma roll_value_Num (rnd q : Q) :
  roll_value rnd (Num q) = Num (inject_Z (Qfloor (rnd * q) + 1)).
Proof.
  unfold roll_value. cbn [js_mul Math_floor js_add].
  rewrite (Qfloor_comp _ _ (Qred_correct (rnd * q))).
  now rewrite Qred_succ.
Qed.

Lemma inject_Z_lt_inv (a b : Z) : (inject_Z a < inject_Z b)%Q -> (a < b)%Z.
Proof. now rewrite <- Zlt_Qlt. Qed.

(** For a finite bound of at least 1 the sampled value is an integer between
    1 and the bound rounded up. *)
Lemma roll_value_ceiling (rnd q : Q) :
  unit_sample rnd -> (1 <= q)%Q ->
  exists v : Z,
    roll_value rnd (Num q) = Num (inject_Z v) /\ (1 <= v <= Qceiling q)%Z.
Proof.
  intros [H0 H1] Hq. exists (Qfloor (rnd * q) + 1)%Z.
  split; [apply roll_value_Num |].
  assert (Hpos : (0 <= rnd * q)%Q).
  { apply Qmult_le_0_compat; [assumption |].
    apply Qle_trans with 1%Q; [discriminate | assumption]. }
  assert (Hlt : (rnd * q < q)%Q).
  { assert (H : (rnd * q < 1 * q)%Q).
    { apply Qmult_lt_compat_r; [| assumption].
      apply Qlt_le_trans with 1%Q; [reflexivity | assumption]. }
    now rewrite Qmult_1_l in H. }
  split.
  - pose proof (Qfloor_resp_le _ _ Hpos) as H.
    change (Qfloor 0) with 0%Z in H. lia.
  - assert ((Qfloor (rnd * q) < Qceiling q)%Z); [| lia].
    apply inject_Z_lt_inv.
    apply Qle_lt_trans with (rnd * q)%Q; [apply Qfloor_le |].
    apply Qlt_le_trans with q; [assumption | apply Qle_ceiling].
Qed.

(** For an integral bound [z >= 1] the sampled value lies in [1, z]. *)
Lemma roll_value_integral (rnd q : Q) (z : Z) :
  unit_sample rnd -> q == inject_Z z -> (1 <= z)%Z ->
  exists v : Z,
    roll_value rnd (Num q) = Num (inject_Z v) /\ (1 <= v <= z)%Z.
Proof.
  intros Hr Hq Hz.
  destruct (roll_value_ceiling rnd q Hr) as (v & Hv & Hb).
  - rewrite Hq. change 1%Q with (inject_Z 1). now rewrite <- Zle_Qle.
  - exists v. split; [assumption |].
    rewrite (Qceiling_comp _ _ Hq), Qceiling_Z in Hb. assumption.
Qed.

(** [Math.max(1, x)] by cases on [x]. *)
Lemma Math_max_1_Num (q : Q) : Math_max [Num 1; Num q] = Num (Qmax 1 q).
Proof.
  unfold Math_max. cbn [Math_max_from js_lt].
  unfold Qlt_bool, Qmax, GenericMinMax.gmax.
  destruct (Qle_bool q 1) eqn:E; cbn [negb].
  - apply Qle_bool_iff in E.
    destruct (1 ?= q)%Q eqn:C; try reflexivity.
    apply Qlt_alt in C. exfalso. exact (Qlt_not_le _ _ C E).
  - destruct (1 ?= q)%Q eqn:C; try reflexivity; exfalso.
    + apply Qeq_alt in C. apply not_true_iff_false in E. apply E.
      apply Qle_bool_iff. rewrite C. apply Qle_refl.
    + apply Qgt_alt in C. apply not_true_iff_false in E. apply E.
      apply Qle_bool_iff. apply Qlt_le_weak. exact C.
Qed.

Lemma Math_max_1_NaN : Math_max [Num 1; NaN] = NaN.
Proof. reflexivity. Qed.

Lemma Math_max_1_PosInf : Math_max [Num 1; PosInf] = PosInf.
Proof. reflexivity. Qed.

Lemma Math_max_1_NegInf : Math_max [Num 1; NegInf] = Num 1.
Proof. reflexivity. Qed.

Lemma Qmax_1_nonpos (q : Q) : (q <= 0)%Q -> Qmax 1 q = 1%Q.
Proof.
  intros H. unfold Qmax, GenericMinMax.gmax.
  destruct (1 ?= q)%Q eqn:C; try reflexivity.
  apply Qlt_alt in C. exfalso.
  apply (Qlt_not_le _ _ C). apply Qle_trans with 0%Q; [assumption | discriminate].
Qed.

(** [Math.max(1, x) >= 1] holds exactly when [x] is not NaN. *)
Lemma Math_max_1_ge (x : number) :
  js_ge (Math_max [Num 1; x]) (Num 1) = true <-> x <> NaN.
Proof.
  destruct x as [q | | |].
  - rewrite Math_max_1_Num. unfold js_ge, js_le.
    split; [discriminate |]. intros _. apply Qle_bool_iff. apply Q.le_max_l.
  - split; [discriminate | congruence].
  - split; [discriminate | reflexivity].
  - split; [discriminate | reflexivity].
Qed.

End Numbers.

(** ** The bound editors *)

Section BoundEditors.

Variable w : World.
Variable value : jsstring.

Lemma step_TableMaxChange :
  step (TableMaxChange value) w
  = mkWorld (mkState (Math_max [Num 1; ToNumber value]) (seatMax (ui w))
                     (table (ui w)) (seat (ui w)) (rolling (ui w)))
            (intervals w) (next_id w) (log w).
Proof. reflexivity. Qed.

Lemma step_SeatMaxChange :
  step (SeatMaxChange value) w
  = mkWorld (mkState (tableMax (ui w)) (Math_max [Num 1; ToNumber value])
                     (table (ui w)) (seat (ui w)) (rolling (ui w)))
            (intervals w) (next_id w) (log w).
Proof. reflexivity. Qed.

(** C4. On every input change the bound stored by either editor is
    [Math.max(1, +value)]; when the input parses to a finite number [q] this is
    the larger of 1 and [q], and it is exactly 1 when [q] is zero or negative
    (and also when the input parses to -Infinity). *)
Theorem bound_editor_stores_max :
  (tableMax (ui (step (TableMaxChange value) w))
     = Math_max [Num 1; ToNumber value]
   /\ seatMax (ui (step (SeatMaxChange value) w))
     = Math_max [Num 1; ToNumber value])
  /\ (forall q : Q, ToNumber value = Num q ->
        tableMax (ui (step (TableMaxChange value) w)) = Num (Qmax 1 q)
        /\ seatMax (ui (step (SeatMaxChange value) w)) = Num (Qmax 1 q))
  /\ (forall q : Q, ToNumber value = Num q -> (q <= 0)%Q ->
        tableMax (ui (step (TableMaxChange value) w)) = Num 1
        /\ seatMax (ui (step (SeatMaxChange value) w)) = Num 1)
  /\ (ToNumber value = NegInf ->
        tableMax (ui (step (TableMaxChange value) w)) = Num 1
        /\ seatMax (ui (step (SeatMaxChange value) w)) = Num 1).
Proof.
  rewrite step_TableMaxChange, step_SeatMaxChange. cbn [ui tableMax seatMax].
  repeat split; try reflexivity.
  - rewrite H. apply Math_max_1_Num.
  - rewrite H. apply Math_max_1_Num.
  - rewrite H, Math_max_1_Num. f_equal. now apply Qmax_1_nonpos.
  - rewrite H, Math_max_1_Num. f_equal. now apply Qmax_1_nonpos.
  - rewrite H. reflexivity.
  - rewrite H. reflexivity.
Qed.

(** C9. From a state whose two bounds are at least 1, a bound editor keeps
    both bounds at least 1 exactly when its input does not coerce to NaN; for
    an input that coerces to NaN the stored bound is NaN. *)
Theorem bound_editor_invariant_iff_not_NaN :
  bounds_ok (ui w) ->
  (bounds_ok (ui (step (TableMaxChange value) w)) <-> ToNumber value <> NaN)
  /\ (bounds_ok (ui (step (SeatMaxChange value) w)) <-> ToNumber value <> NaN)
  /\ (ToNumber value = NaN ->
        tableMax (ui (step (TableMaxChange value) w)) = NaN
        /\ seatMax (ui (step (SeatMaxChange value) w)) = NaN).
Proof.
  intros [Ht Hs].
  rewrite step_TableMaxChange, step_SeatMaxChange.
  unfold bounds_ok. cbn [ui tableMax seatMax].
  repeat split.
  - intros [H _]. now apply Math_max_1_ge.
  - now apply Math_max_1_ge.
  - assumption.
  - intros [_ H]. now apply Math_max_1_ge.
  - assumption.
  - now apply Math_max_1_ge.
  - rewrite H. reflexivity.
  - rewrite H. reflexivity.
Qed.

End BoundEditors.

(** C8. The empty string coerces to 0, and after the clamp the bound stored
    for it is exactly 1, in either editor and from every state. *)
Theorem empty_input_stores_1 :
  ToNumber (lit "") = Num 0
  /\ forall w : World,
       tableMax (ui (step (TableMaxChange (lit "")) w)) = Num 1
       /\ seatMax (ui (step (SeatMaxChange (lit "")) w)) = Num 1.
Proof. split; [reflexivity | intros w; split; reflexivity]. Qed.

Lemma bound_editor_stores_max_witness :
  tableMax (ui (step (TableMaxChange (lit "-7")) init)) = Num 1
  /\ seatMax (ui (step (SeatMaxChange (lit "-7")) init)) = Num 1.
Proof.
  apply (bound_editor_stores_max init (lit "-7")) with (q := (-7 # 1)%Q).
  - reflexivity.
  - discriminate.
Defined.

Lemma bound_editor_invariant_iff_not_NaN_witness :
  ~ bounds_ok (ui (step (TableMaxChange (lit "abc")) init))
  /\ bounds_ok (ui (step (SeatMaxChange (lit "12")) init)).
Proof.
  assert (H0 : bounds_ok (ui init)) by (split; reflexivity).
  destruct (bound_editor_invariant_iff_not_NaN init (lit "abc") H0)
    as (Ha & _ & _).
  destruct (bound_editor_invariant_iff_not_NaN init (lit "12") H0)
    as (_ & Hb & _).
  split.
  - intros H. apply Ha in H. apply H. reflexivity.
  - apply Hb. discriminate.
Defined.

(** ** Reset *)

(** C5. From every prior state, reset sets [table] and [seat] to null and
    leaves [rolling], [tableMax] and [seatMax] as they were; it touches no
    timer and has no outside effect. *)
Theorem reset_clears_results (w : World) :
  let w' := step Reset w in
  table (ui w') = None /\ seat (ui w') = None
  /\ rolling (ui w') = rolling (ui w)
  /\ tableMax (ui w') = tableMax (ui w)
  /\ seatMax (ui w') = seatMax (ui w)
  /\ intervals w' = intervals w /\ next_id w' = next_id w
  /\ log w' = log w.
Proof. cbv zeta. repeat split; reflexivity. Qed.

(** ** One step of [roll] and of the interval callback *)

Section Steps.

Variable w : World.

Lemma step_Roll_rolling (ty : string) :
  rolling (ui w) = true -> step (Roll ty) w = w.
Proof.
  intros H. unfold step, dispatch, roll. rewrite H. reflexivity.
Qed.

Lemma step_Roll_idle (ty : string) :
  rolling (ui w) = false ->
  step (Roll ty) w
  = mkWorld (mkState (tableMax (ui w)) (seatMax (ui w)) (table (ui w))
                     (seat (ui w)) true)
            (<[next_id w :=
                 mkClosure ty (tableMax (ui w)) (seatMax (ui w)) FLASH_COUNT]>
               (intervals w))
            (S (next_id w))
            (log w ++ [SetInterval (next_id w) FLASH_INTERVAL]).
Proof.
  intros H. unfold step, dispatch, roll. rewrite H. reflexivity.
Qed.

Lemma step_Tick_none (id : nat) (rnd : Q) :
  intervals w !! id = None -> step (Tick id rnd) w = w.
Proof.
  intros H. unfold step, dispatch. rewrite H. reflexivity.
Qed.

(** A tick that is not the last one: the result is written and the counter
    decremented, nothing else. *)
Lemma step_Tick_more (id : nat) (rnd : Q) (c : Closure) :
  intervals w !! id = Some c -> (1 < flashes c)%Z ->
  step (Tick id rnd) w
  = mkWorld (write_result (type c) (roll_value rnd (captured_bound c)) (ui w))
            (alter (with_flashes (flashes c - 1)) id (intervals w))
            (next_id w) (log w ++ [Fired id]).
Proof.
  intros H Hf. unfold step, dispatch. rewrite H.
  unfold bind, emit, interval_callback, write_result, captured_bound.
  cbn [fst snd].
  destruct (Z.leb_spec (flashes c - 1) 0) as [Hle | _]; [lia |].
  destruct (String.eqb (type c) "table"); reflexivity.
Qed.

(** The last tick: after the write the timer is cleared, [rolling] is reset
    and the confetti is fired. *)
Lemma step_Tick_last (id : nat) (rnd : Q) (c : Closure) :
  intervals w !! id = Some c -> (flashes c <= 1)%Z ->
  step (Tick id rnd) w
  = mkWorld (stop_rolling
               (write_result (type c) (roll_value rnd (captured_bound c))
                             (ui w)))
            (delete id (alter (with_flashes (flashes c - 1)) id (intervals w)))
            (next_id w)
            (((log w ++ [Fired id]) ++ [ClearInterval id]) ++ [Confetti]).
Proof.
  intros H Hf. unfold step, dispatch. rewrite H.
  unfold bind, emit, interval_callback, write_result, captured_bound.
  cbn [fst snd].
  destruct (Z.leb_spec (flashes c - 1) 0) as [_ | Hgt]; [| lia].
  destruct (String.eqb (type c) "table"); reflexivity.
Qed.

End Steps.

Lemma rolling_write_result (ty : string) (v : number) (s : State) :
  rolling (write_result ty v s) = rolling s.
Proof. unfold write_result. now destruct (String.eqb ty "table"). Qed.

(** ** At most one animation *)

Lemma single_timer_init : single_timer init.
Proof. reflexivity. Qed.

Lemma single_timer_step (e : Event) (w : World) :
  single_timer w -> single_timer (step e w).
Proof.
  unfold single_timer. intros Hw.
  destruct e as [ty | | v | v | id rnd].
  - destruct (rolling (ui w)) eqn:R.
    + rewrite step_Roll_rolling by assumption. now rewrite R.
    + rewrite step_Roll_idle by assumption. cbn [ui rolling intervals].
      rewrite Hw, insert_empty. eauto.
  - exact Hw.
  - exact Hw.
  - exact Hw.
  - destruct (intervals w !! id) as [c |] eqn:L.
    2:{ now rewrite step_Tick_none. }
    destruct (rolling (ui w)) eqn:R.
    2:{ rewrite Hw in L. now apply lookup_empty_Some in L. }
    destruct Hw as (id' & c' & Hw). rewrite Hw in L.
    apply lookup_singleton_Some in L as [-> ->].
    assert (L : intervals w !! id = Some c)
      by (rewrite Hw; apply lookup_singleton_eq).
    destruct (Z_lt_le_dec 1 (flashes c)) as [Hf | Hf].
    + rewrite (step_Tick_more w id rnd c L Hf). cbn [ui intervals].
      rewrite rolling_write_result, R, Hw, alter_singleton_eq. eauto.
    + rewrite (step_Tick_last w id rnd c L Hf). cbn [ui intervals].
      unfold stop_rolling. cbn [rolling].
      now rewrite Hw, alter_singleton_eq, delete_singleton_eq.
Qed.

Lemma single_timer_run (evs : list Event) (w : World) :
  single_timer w -> single_timer (run evs w).
Proof.
  revert w. induction evs as [| e evs IH]; intros w Hw; cbn [run].
  - exact Hw.
  - apply IH. now apply single_timer_step.
Qed.

Lemma single_timer_size (w : World) :
  single_timer w -> (size (intervals w) <= 1)%nat.
Proof.
  unfold single_timer. destruct (rolling (ui w)).
  - intros (id & c & ->). rewrite map_size_singleton. lia.
  - intros ->. rewrite map_size_empty. lia.
Qed.

(** C2. A call of [roll] while [rolling] is true changes nothing: not the
    state, not the timers, and it has no outside effect. Hence, whatever
    happens to the page after mount, at most one timer is installed, and one
    is installed exactly while [rolling] is true. *)
Theorem roll_while_rolling_is_noop :
  (forall (w : World) (ty : string),
     rolling (ui w) = true -> step (Roll ty) w = w)
  /\ (forall evs : list Event,
        let w := run evs init in
        (size (intervals w) <= 1)%nat
        /\ (rolling (ui w) = false <-> intervals w = ∅)).
Proof.
  split.
  - intros w ty H. now apply step_Roll_rolling.
  - intros evs w.
    assert (Hw : single_timer w)
      by (apply single_timer_run, single_timer_init).
    split; [now apply single_timer_size |].
    unfold single_timer in Hw. destruct (rolling (ui w)).
    + destruct Hw as (id & c & Hw). split; [discriminate |].
      intros E. rewrite E in Hw. exfalso.
      apply (f_equal (fun m => m !! id)) in Hw.
      rewrite lookup_empty, lookup_singleton_eq in Hw. discriminate.
    + split; [intros _; exact Hw | reflexivity].
Qed.

Lemma roll_while_rolling_is_noop_witness :
  let w := run [Roll "table"; Tick 1 (1 # 2)] init in
  step (Roll "seat") w = w.
Proof.
  apply (proj1 roll_while_rolling_is_noop). reflexivity.
Defined.

(** ** Bookkeeping of timers and effects *)

Lemma count_app (p : Effect -> bool) (l1 l2 : list Effect) :
  count p (l1 ++ l2) = (count p l1 + count p l2)%nat.
Proof. induction l1 as [| e l1 IH]; cbn [count app]; lia. Qed.

Lemma count_repeat_fired (id : nat) (n : nat) :
  count (is_fired id) (repeat (Fired id) n) = n.
Proof.
  induction n as [| n IH]; cbn [repeat count is_fired]; [reflexivity |].
  rewrite Nat.eqb_refl, IH. reflexivity.
Qed.

Lemma count_repeat_other (p : Effect -> bool) (e : Effect) (n : nat) :
  p e = false -> count p (repeat e n) = 0%nat.
Proof.
  intros H. induction n as [| n IH]; cbn [repeat count]; [reflexivity |].
  now rewrite H, IH.
Qed.

Lemma is_fired_ne (i id : nat) : i <> id -> is_fired id (Fired i) = false.
Proof. intros H. cbn. now apply Nat.eqb_neq. Qed.

Lemma is_cleared_ne (i id : nat) :
  i <> id -> is_cleared id (ClearInterval i) = false.
Proof. intros H. cbn. now apply Nat.eqb_neq. Qed.

Lemma ledger_init : ledger init.
Proof.
  split.
  - apply single_timer_init.
  - intros id _. cbn. now rewrite lookup_empty.
  - reflexivity.
  - reflexivity.
Qed.

(** A timer that is installed was handed out before. *)
Lemma ledger_installed (w : World) (id : nat) (c : Closure) :
  ledger w -> intervals w !! id = Some c -> (id < next_id w)%nat.
Proof.
  intros Hw L. destruct (Nat.lt_ge_cases id (next_id w)) as [H | H]; [exact H |].
  apply (ledger_fresh w Hw) in H as (H & _). congruence.
Qed.

(** While a timer is installed it is the only one and [rolling] is true. *)
Lemma ledger_installed_only (w : World) (id : nat) (c : Closure) :
  ledger w -> intervals w !! id = Some c ->
  rolling (ui w) = true /\ intervals w = {[ id := c ]}.
Proof.
  intros Hw L. pose proof (ledger_single w Hw) as S.
  unfold single_timer in S. destruct (rolling (ui w)).
  - destruct S as (id' & c' & S). split; [reflexivity |].
    rewrite S in L. apply lookup_singleton_Some in L as [-> ->]. exact S.
  - rewrite S in L. now apply lookup_empty_Some in L.
Qed.

Lemma ledger_step (e : Event) (w : World) : ledger w -> ledger (step e w).
Proof.
  intros Hw.
  destruct e as [ty | | v | v | id rnd];
    try (destruct Hw; split; assumption).
  - destruct (rolling (ui w)) eqn:R.
    { now rewrite step_Roll_rolling. }
    pose proof (ledger_single w Hw) as S. unfold single_timer in S.
    rewrite R in S.
    split.
    + apply single_timer_step, (ledger_single w Hw).
    + rewrite step_Roll_idle by assumption. cbn [next_id intervals log].
      intros id Hid.
      destruct (ledger_fresh w Hw id) as (F1 & F2 & F3); [lia |].
      rewrite lookup_insert_ne by lia. rewrite !count_app, F2, F3.
      now cbn.
    + rewrite step_Roll_idle by assumption. cbn [intervals log].
      rewrite !count_app, (ledger_started w Hw), S, insert_empty.
      rewrite map_size_singleton, map_size_empty. cbn. lia.
    + rewrite step_Roll_idle by assumption. cbn [log].
      rewrite !count_app, (ledger_cleared w Hw). cbn. lia.
  - destruct (intervals w !! id) as [c |] eqn:L.
    2:{ now rewrite step_Tick_none. }
    pose proof (ledger_installed w id c Hw L) as Hlt.
    destruct (ledger_installed_only w id c Hw L) as (R & S).
    split.
    + apply single_timer_step, (ledger_single w Hw).
    + intros id' Hid'.
      destruct (Z_lt_le_dec 1 (flashes c)) as [Hf | Hf].
      * rewrite (step_Tick_more w id rnd c L Hf) in Hid' |- *.
        cbn [next_id intervals log] in Hid' |- *.
        destruct (ledger_fresh w Hw id' Hid') as (F1 & F2 & F3).
        rewrite lookup_alter_ne by lia.
        rewrite !count_app, F2, F3. cbn [count is_cleared].
        rewrite is_fired_ne by lia. auto.
      * rewrite (step_Tick_last w id rnd c L Hf) in Hid' |- *.
        cbn [next_id intervals log] in Hid' |- *.
        destruct (ledger_fresh w Hw id' Hid') as (F1 & F2 & F3).
        assert (Hne : id <> id') by lia.
        rewrite lookup_delete_ne, lookup_alter_ne by lia.
        rewrite !count_app, F2, F3.
        cbn [count is_fired is_cleared].
        apply Nat.eqb_neq in Hne. rewrite Hne. auto.
    + destruct (Z_lt_le_dec 1 (flashes c)) as [Hf | Hf].
      * rewrite (step_Tick_more w id rnd c L Hf). cbn [intervals log].
        rewrite !count_app, (ledger_started w Hw), S, alter_singleton_eq.
        rewrite !map_size_singleton. cbn. lia.
      * rewrite (step_Tick_last w id rnd c L Hf). cbn [intervals log].
        rewrite !count_app, (ledger_started w Hw), S, alter_singleton_eq.
        rewrite delete_singleton_eq, map_size_singleton, map_size_empty.
        cbn. lia.
    + destruct (Z_lt_le_dec 1 (flashes c)) as [Hf | Hf].
      * rewrite (step_Tick_more w id rnd c L Hf). cbn [log].
        rewrite !count_app, (ledger_cleared w Hw). cbn. lia.
      * rewrite (step_Tick_last w id rnd c L Hf). cbn [log].
        rewrite !count_app, (ledger_cleared w Hw). cbn. lia.
Qed.

Lemma ledger_run (evs : list Event) (w : World) :
  ledger w -> ledger (run evs w).
Proof.
  revert w. induction evs as [| e evs IH]; intros w Hw; cbn [run].
  - exact Hw.
  - apply IH. now apply ledger_step.
Qed.

Lemma ledger_reachable (evs : list Event) : ledger (run evs init).
Proof. apply ledger_run, ledger_init. Qed.

(** ** The course of one draw *)

(** While fewer ticks have run than the counter allows, the timer stays
    installed with the closure it was given, [rolling] stays true, and the
    log grows by one [Fired] entry per tick. Nothing else that can happen
    (calls of [roll], reset, bound changes) disturbs the draw. *)
Lemma draw_in_progress (evs : list Event) :
  forall (w : World) (id : nat) (c : Closure),
    ledger w ->
    intervals w !! id = Some c ->
    (Z.of_nat (ticks_in id evs) < flashes c)%Z ->
    exists c',
      intervals (run evs w) !! id = Some c'
      /\ type c' = type c
      /\ c_tableMax c' = c_tableMax c
      /\ c_seatMax c' = c_seatMax c
      /\ flashes c' = (flashes c - Z.of_nat (ticks_in id evs))%Z
      /\ rolling (ui (run evs w)) = true
      /\ log (run evs w) = log w ++ repeat (Fired id) (ticks_in id evs)
      /\ next_id (run evs w) = next_id w.
Proof.
  induction evs as [| e evs IH]; intros w id c Hw L Hn.
  - destruct (ledger_installed_only w id c Hw L) as (R & _).
    exists c. cbn [run ticks_in repeat]. rewrite app_nil_r.
    repeat split; try assumption. cbn. lia.
  - destruct (ledger_installed_only w id c Hw L) as (R & S).
    pose proof (ledger_step e w Hw) as Hw'.
    destruct e as [ty | | v | v | id' rnd]; cbn [run ticks_in] in *.
    + rewrite step_Roll_rolling in Hw' |- * by assumption. now apply IH.
    + now apply (IH (step Reset w) id c).
    + now apply (IH (step (TableMaxChange v) w) id c).
    + now apply (IH (step (SeatMaxChange v) w) id c).
    + destruct (Nat.eqb_spec id' id) as [-> | Hne].
      2:{ assert (L' : intervals w !! id' = None)
            by (rewrite S; now apply lookup_singleton_ne).
          rewrite step_Tick_none in Hw' |- * by assumption. now apply IH. }
      assert (Hf : (1 < flashes c)%Z) by lia.
      pose proof (step_Tick_more w id rnd c L Hf) as E.
      set (w' := step (Tick id rnd) w) in *.
      assert (L' : intervals w' !! id = Some (with_flashes (flashes c - 1) c))
        by (rewrite E; cbn [intervals]; now rewrite lookup_alter_eq, L).
      assert (Lg : log w' = log w ++ [Fired id]) by now rewrite E.
      assert (Nx : next_id w' = next_id w) by now rewrite E.
      destruct (IH w' id _ Hw' L')
        as (c' & H1 & H2 & H3 & H4 & H5 & H6 & H7 & H8).
      { cbn [with_flashes flashes]. lia. }
      cbn [with_flashes type c_tableMax c_seatMax flashes] in H2, H3, H4, H5.
      exists c'. repeat split; try assumption.
      * lia.
      * rewrite H7, Lg, <- app_assoc. reflexivity.
      * congruence.
Qed.

(** A timer that was handed out and is no longer installed never comes
    back: later events neither fire nor clear it. *)
Lemma finished_step (e : Event) (w : World) (id : nat) :
  (id < next_id w)%nat -> intervals w !! id = None ->
  (id < next_id (step e w))%nat
  /\ intervals (step e w) !! id = None
  /\ count (is_fired id) (log (step e w)) = count (is_fired id) (log w)
  /\ count (is_cleared id) (log (step e w)) = count (is_cleared id) (log w).
Proof.
  intros Hlt L.
  destruct e as [ty | | v | v | id' rnd]; try (repeat split; assumption).
  - destruct (rolling (ui w)) eqn:R.
    { rewrite step_Roll_rolling by assumption. auto. }
    rewrite step_Roll_idle by assumption. cbn [next_id intervals log].
    rewrite lookup_insert_ne by lia. rewrite !count_app. cbn.
    repeat split; [lia | assumption | lia | lia].
  - destruct (intervals w !! id') as [c |] eqn:L'.
    2:{ rewrite step_Tick_none by assumption. auto. }
    assert (Hne : id' <> id) by congruence.
    pose proof Hne as Hb. apply Nat.eqb_neq in Hb.
    destruct (Z_lt_le_dec 1 (flashes c)) as [Hf | Hf].
    + rewrite (step_Tick_more w id' rnd c L' Hf). cbn [next_id intervals log].
      rewrite lookup_alter_ne by assumption. rewrite !count_app.
      cbn [count is_fired is_cleared]. rewrite Hb.
      repeat split; [assumption | assumption | lia | lia].
    + rewrite (step_Tick_last w id' rnd c L' Hf). cbn [next_id intervals log].
      rewrite lookup_delete_ne, lookup_alter_ne by assumption.
      rewrite !count_app. cbn [count is_fired is_cleared]. rewrite Hb.
      repeat split; [assumption | assumption | lia | lia].
Qed.

Lemma finished_run (evs : list Event) :
  forall (w : World) (id : nat),
    (id < next_id w)%nat -> intervals w !! id = None ->
    intervals (run evs w) !! id = None
    /\ count (is_fired id) (log (run evs w)) = count (is_fired id) (log w)
    /\ count (is_cleared id) (log (run evs w))
       = count (is_cleared id) (log w).
Proof.
  induction evs as [| e evs IH]; intros w id Hlt L; cbn [run].
  - auto.
  - destruct (finished_step e w id Hlt L) as (H1 & H2 & H3 & H4).
    destruct (IH (step e w) id H1 H2) as (K1 & K2 & K3).
    rewrite K2, K3. auto.
Qed.

(** C3. Take any state the mounted page can be in with [rolling] false and
    start a draw there; let anything happen afterwards. As long as the
    draw's timer has fired fewer than 50 times it stays installed with
    [50 - n] flashes left, [rolling] stays true, and nothing but the [n]
    callback runs is logged: no clear, no confetti. The
    50th run of the callback removes the timer, sets [rolling] to false and
    logs exactly one [clearInterval] followed by exactly one confetti; from
    then on, whatever happens, this timer has run exactly 50 times and has
    been cleared exactly once. In every state of the page the confetti has
    been fired as often as a timer was cleared, and every started draw is
    either the one in progress or has fired its confetti. *)
Theorem draw_runs_FLASH_COUNT_ticks
    (before : list Event) (ty : string) (evs : list Event) :
  let w0 := run before init in
  let id := next_id w0 in
  let w1 := step (Roll ty) w0 in
  let w := run evs w1 in
  rolling (ui w0) = false ->
  (ticks_in id evs < 50)%nat ->
  (exists c, intervals w !! id = Some c
             /\ flashes c = (FLASH_COUNT - Z.of_nat (ticks_in id evs))%Z)
  /\ rolling (ui w) = true
  /\ log w = log w1 ++ repeat (Fired id) (ticks_in id evs)
  /\ (ticks_in id evs = 49%nat ->
      forall rnd : Q,
        let w2 := step (Tick id rnd) w in
        intervals w2 !! id = None
        /\ rolling (ui w2) = false
        /\ log w2 = log w1 ++ repeat (Fired id) 50
                          ++ [ClearInterval id; Confetti]
        /\ forall later : list Event,
             let w3 := run later w2 in
             intervals w3 !! id = None
             /\ count (is_fired id) (log w3) = 50%nat
             /\ count (is_cleared id) (log w3) = 1%nat)
  /\ (forall any : list Event,
        let v := run any init in
        count is_confetti (log v) = count is_clear (log v)
        /\ count is_start (log v)
           = (count is_confetti (log v) + size (intervals v))%nat).
Proof.
  intros w0 id w1 w R Hn.
  assert (E1 : w1 = mkWorld
                  (mkState (tableMax (ui w0)) (seatMax (ui w0))
                           (table (ui w0)) (seat (ui w0)) true)
                  (<[id := mkClosure ty (tableMax (ui w0)) (seatMax (ui w0))
                                     FLASH_COUNT]> (intervals w0))
                  (S id) (log w0 ++ [SetInterval id FLASH_INTERVAL]))
    by (apply step_Roll_idle; exact R).
  destruct (draw_in_progress evs w1 id
              (mkClosure ty (tableMax (ui w0)) (seatMax (ui w0)) FLASH_COUNT))
    as (c & L & _ & _ & _ & Hf & Rw & Lw & Nw).
  { apply ledger_step, ledger_reachable. }
  { rewrite E1. cbn [intervals]. apply lookup_insert_eq. }
  { cbn [flashes]. unfold FLASH_COUNT. lia. }
  cbn [flashes] in Hf. fold w in L, Rw, Lw, Nw.
  split; [exists c; split; assumption |].
  split; [assumption |]. split; [assumption |]. split.
  - intros H49 rnd w2.
    assert (Hlast : (flashes c <= 1)%Z)
      by (rewrite Hf, H49; unfold FLASH_COUNT; lia).
    assert (E2 : w2 = _) by (apply (step_Tick_last w id rnd c L Hlast)).
    assert (L2 : intervals w2 !! id = None)
      by (rewrite E2; cbn [intervals]; apply lookup_delete_eq).
    assert (Lg : log w2 = log w1 ++ repeat (Fired id) 50
                               ++ [ClearInterval id; Confetti]).
    { rewrite E2. cbn [log]. rewrite Lw, H49.
      change 50%nat with (49 + 1)%nat. rewrite repeat_app.
      cbn [repeat]. rewrite <- !app_assoc. reflexivity. }
    split; [exact L2 |]. split; [rewrite E2; reflexivity |].
    split; [exact Lg |].
    intros later w3.
    destruct (finished_run later w2 id) as (K1 & K2 & K3).
    { rewrite E2. cbn [next_id]. rewrite Nw, E1. cbn [next_id]. lia. }
    { exact L2. }
    fold w3 in K1, K2, K3. rewrite K2, K3, Lg, E1. cbn [log].
    destruct (ledger_fresh w0 (ledger_reachable before) id (Nat.le_refl _))
      as (_ & F2 & F3).
    rewrite !count_app, F2, F3, count_repeat_fired.
    rewrite (count_repeat_other (is_cleared id) (Fired id)) by reflexivity.
    cbn [count is_fired is_cleared]. rewrite Nat.eqb_refl. auto.
  - intros any v. pose proof (ledger_reachable any) as Hv. fold v in Hv.
    split; [symmetry; apply (ledger_cleared v Hv) |].
    apply (ledger_started v Hv).
Qed.

Lemma draw_runs_FLASH_COUNT_ticks_witness :
  let w := run [Roll "seat"; Tick 1 (1 # 3); Reset; Tick 1 (2 # 3)] init in
  rolling (ui w) = true
  /\ log w = [SetInterval 1 100; Fired 1; Fired 1].
Proof.
  destruct (draw_runs_FLASH_COUNT_ticks [] "seat"
              [Tick 1 (1 # 3); Reset; Tick 1 (2 # 3)])
    as (_ & H1 & H2 & _).
  - reflexivity.
  - cbn. lia.
  - split; [exact H1 | exact H2].
Defined.

(** ** What one tick writes *)

Lemma result_of_write (ty : string) (v : number) (s : State) :
  result_of ty (write_result ty v s) = Some v.
Proof. unfold result_of, write_result. now destruct (String.eqb ty "table"). Qed.

Lemma other_result_of_write (ty : string) (v : number) (s : State) :
  other_result_of ty (write_result ty v s) = other_result_of ty s.
Proof.
  unfold other_result_of, write_result. now destruct (String.eqb ty "table").
Qed.

Lemma bounds_write (ty : string) (v : number) (s : State) :
  tableMax (write_result ty v s) = tableMax s
  /\ seatMax (write_result ty v s) = seatMax s.
Proof. unfold write_result. now destruct (String.eqb ty "table"). Qed.

(** Every run of the callback, the last one included, writes
    [floor(rnd * max) + 1] for the captured [max] to the variable selected by
    [type], and leaves the other result and both bounds alone. *)
Lemma tick_writes (w : World) (id : nat) (c : Closure) (rnd : Q) :
  intervals w !! id = Some c ->
  let w' := step (Tick id rnd) w in
  result_of (type c) (ui w') = Some (roll_value rnd (captured_bound c))
  /\ other_result_of (type c) (ui w') = other_result_of (type c) (ui w)
  /\ tableMax (ui w') = tableMax (ui w)
  /\ seatMax (ui w') = seatMax (ui w).
Proof.
  intros L w'. subst w'.
  destruct (bounds_write (type c) (roll_value rnd (captured_bound c)) (ui w))
    as [Bt Bs].
  destruct (Z_lt_le_dec 1 (flashes c)) as [Hf | Hf].
  - rewrite (step_Tick_more w id rnd c L Hf). cbn [ui].
    rewrite result_of_write, other_result_of_write. auto.
  - rewrite (step_Tick_last w id rnd c L Hf). cbn [ui].
    pose proof (result_of_write (type c)
                  (roll_value rnd (captured_bound c)) (ui w)) as H1.
    pose proof (other_result_of_write (type c)
                  (roll_value rnd (captured_bound c)) (ui w)) as H2.
    unfold result_of, other_result_of, stop_rolling in *.
    cbn [tableMax seatMax table seat].
    destruct (String.eqb (type c) "table"); auto.
Qed.

(** ** The closure of a running draw never changes *)

Lemma next_id_mono (e : Event) (w : World) :
  (next_id w <= next_id (step e w))%nat.
Proof.
  destruct e as [ty | | v | v | id rnd]; try apply Nat.le_refl.
  - destruct (rolling (ui w)) eqn:R.
    + now rewrite step_Roll_rolling.
    + rewrite step_Roll_idle by assumption. cbn [next_id]. lia.
  - destruct (intervals w !! id) as [c |] eqn:L.
    2:{ now rewrite step_Tick_none. }
    destruct (Z_lt_le_dec 1 (flashes c)) as [Hf | Hf].
    + now rewrite (step_Tick_more w id rnd c L Hf).
    + now rewrite (step_Tick_last w id rnd c L Hf).
Qed.

Lemma closure_stable_step (e : Event) (w : World) (id : nat) (c : Closure) :
  (id < next_id w)%nat ->
  intervals (step e w) !! id = Some c ->
  exists c0, intervals w !! id = Some c0
             /\ type c = type c0
             /\ c_tableMax c = c_tableMax c0
             /\ c_seatMax c = c_seatMax c0.
Proof.
  intros Hlt L.
  destruct e as [ty | | v | v | id' rnd];
    try (exists c; repeat split; exact L).
  - destruct (rolling (ui w)) eqn:R.
    { rewrite step_Roll_rolling in L by assumption. eauto 10. }
    rewrite step_Roll_idle in L by assumption. cbn [intervals] in L.
    rewrite lookup_insert_ne in L by lia. eauto 10.
  - destruct (intervals w !! id') as [c1 |] eqn:L1.
    2:{ rewrite step_Tick_none in L by assumption. eauto 10. }
    destruct (Z_lt_le_dec 1 (flashes c1)) as [Hf | Hf].
    + rewrite (step_Tick_more w id' rnd c1 L1 Hf) in L. cbn [intervals] in L.
      destruct (decide (id' = id)) as [-> | Hne].
      * rewrite lookup_alter_eq, L1 in L. cbn in L.
        injection L as <-. eauto 10.
      * rewrite lookup_alter_ne in L by assumption. eauto 10.
    + rewrite (step_Tick_last w id' rnd c1 L1 Hf) in L. cbn [intervals] in L.
      destruct (decide (id' = id)) as [-> | Hne].
      * rewrite lookup_delete_eq in L. discriminate.
      * rewrite lookup_delete_ne, lookup_alter_ne in L by assumption.
        eauto 10.
Qed.

Lemma closure_stable (evs : list Event) :
  forall (w : World) (id : nat) (c : Closure),
    (id < next_id w)%nat ->
    intervals (run evs w) !! id = Some c ->
    exists c0, intervals w !! id = Some c0
               /\ type c = type c0
               /\ c_tableMax c = c_tableMax c0
               /\ c_seatMax c = c_seatMax c0.
Proof.
  induction evs as [| e evs IH]; intros w id c Hlt L; cbn [run] in L.
  - eauto 10.
  - pose proof (next_id_mono e w) as Hm.
    destruct (IH (step e w) id c) as (c1 & L1 & T1 & A1 & B1);
      [lia | exact L |].
    destruct (closure_stable_step e w id c1 Hlt L1) as (c0 & L0 & T0 & A0 & B0).
    exists c0. repeat split; congruence.
Qed.

(** ** Runs of ticks *)

Lemma run_app (evs1 evs2 : list Event) (w : World) :
  run (evs1 ++ evs2) w = run evs2 (run evs1 w).
Proof.
  revert w. induction evs1 as [| e evs1 IH]; intros w; cbn [run app].
  - reflexivity.
  - apply IH.
Qed.

Lemma ticks_in_map (id : nat) (rs : list Q) :
  ticks_in id (List.map (Tick id) rs) = List.length rs.
Proof.
  induction rs as [| r rs IH]; cbn [List.map ticks_in List.length].
  - reflexivity.
  - now rewrite Nat.eqb_refl, IH.
Qed.

Lemma run_ticks_none (rs : list Q) (w : World) (id : nat) :
  intervals w !! id = None -> run (List.map (Tick id) rs) w = w.
Proof.
  intros L. induction rs as [| r rs IH]; cbn [List.map run].
  - reflexivity.
  - now rewrite step_Tick_none.
Qed.

(** However often its timer fires, a draw leaves the other result alone. *)
Lemma ticks_keep_other (rs : list Q) :
  forall (w : World) (id : nat) (c : Closure),
    intervals w !! id = Some c ->
    other_result_of (type c) (ui (run (List.map (Tick id) rs) w))
    = other_result_of (type c) (ui w).
Proof.
  induction rs as [| r rs IH]; intros w id c L; cbn [List.map run].
  - reflexivity.
  - destruct (tick_writes w id c r L) as (_ & Ho & _).
    rewrite <- Ho.
    destruct (Z_lt_le_dec 1 (flashes c)) as [Hf | Hf].
    + apply (IH (step (Tick id r) w) id (with_flashes (flashes c - 1) c)).
      rewrite (step_Tick_more w id r c L Hf). cbn [intervals].
      now rewrite lookup_alter_eq, L.
    + rewrite run_ticks_none; [reflexivity |].
      rewrite (step_Tick_last w id r c L Hf). cbn [intervals].
      apply lookup_delete_eq.
Qed.

(** The closure a draw started in [w0] still has after any events. *)
Lemma draw_closure (w0 : World) (ty : string) (evs : list Event) (c : Closure) :
  rolling (ui w0) = false ->
  intervals (run evs (step (Roll ty) w0)) !! next_id w0 = Some c ->
  type c = ty /\ c_tableMax c = tableMax (ui w0)
  /\ c_seatMax c = seatMax (ui w0).
Proof.
  intros R L.
  destruct (closure_stable evs (step (Roll ty) w0) (next_id w0) c)
    as (c0 & L0 & T & A & B).
  - rewrite step_Roll_idle by assumption. cbn [next_id]. lia.
  - exact L.
  - rewrite step_Roll_idle in L0 by assumption. cbn [intervals] in L0.
    rewrite lookup_insert_eq in L0. injection L0 as <-.
    cbn [type c_tableMax c_seatMax] in T, A, B. auto.
Qed.

Lemma unit_sample_dec_true (rnd : Q) :
  Qle_bool 0 rnd && Qlt_bool rnd 1 = true -> unit_sample rnd.
Proof.
  intros H. apply andb_prop in H as [H0 H1]. split.
  - now apply Qle_bool_iff.
  - now apply Qlt_bool_iff.
Qed.

(** ** The range of the drawn values *)

(** C1 (amended). Take a draw started by [roll(type)] in a state where the
    bound of its kind is a finite number [q >= 1]; this is the bound the
    draw keeps sampling against. Whatever happens after the call, each run
    of the draw's callback, an intermediate tick or the last one, assigns to
    the draw's result variable an integer between 1 and [q] rounded up; so
    when that bound is an integer [z], the value lies in [1, z]. *)
Theorem tick_value_in_range
    (w0 : World) (ty : string) (evs : list Event) (rnd q : Q) :
  let id := next_id w0 in
  let w := run evs (step (Roll ty) w0) in
  rolling (ui w0) = false ->
  is_Some (intervals w !! id) ->
  unit_sample rnd ->
  bound_of ty (ui w0) = Num q ->
  (1 <= q)%Q ->
  exists v : Z,
    result_of ty (ui (step (Tick id rnd) w)) = Some (Num (inject_Z v))
    /\ (1 <= v <= Qceiling q)%Z
    /\ (forall z : Z, q == inject_Z z -> (1 <= v <= z)%Z).
Proof.
  intros id w R [c L] Hr Hq Hq1.
  destruct (draw_closure w0 ty evs c R L) as (T & A & B).
  destruct (tick_writes w id c rnd L) as (Hw & _).
  assert (Hc : captured_bound c = Num q).
  { unfold captured_bound. rewrite T, A, B. exact Hq. }
  destruct (roll_value_ceiling rnd q Hr Hq1) as (v & Hv & Hb).
  exists v. rewrite T in Hw. rewrite Hw, Hc, Hv.
  split; [reflexivity |]. split; [exact Hb |].
  intros z Hz. rewrite (Qceiling_comp _ _ Hz), Qceiling_Z in Hb. exact Hb.
Qed.

Lemma tick_value_in_range_witness :
  exists v : Z,
    table (ui (run [Roll "table"; TableMaxChange (lit "5"); Tick 1 (9 # 10)]
                   init))
    = Some (Num (inject_Z v))
    /\ (1 <= v <= 30)%Z.
Proof.
  destruct (tick_value_in_range init "table" [TableMaxChange (lit "5")]
              (9 # 10) 30)
    as (v & Hv & _ & Hz).
  - reflexivity.
  - eexists. reflexivity.
  - apply unit_sample_dec_true. reflexivity.
  - reflexivity.
  - discriminate.
  - exists v. split; [exact Hv | apply Hz; reflexivity].
Defined.

(** The claim as first stated fails in two ways. For a bound that is no
    integer: with the bound 1.5, which the table editor stores for the input
    "1.5", and the sample 0.75, the tick assigns 2, which is above the bound.
    For the bound configured when the value is set: when the table bound is
    changed from 30 to 5 while a table draw is running, a tick with the
    sample 0.9 still assigns 28, which is above the bound then configured. *)
Lemma configured_bound_exceeded :
  (let w := run [TableMaxChange (lit "1.5"); Roll "table"] init in
   tableMax (ui w) = Num (3 # 2)
   /\ js_ge (tableMax (ui w)) (Num 1) = true
   /\ unit_sample (3 # 4)
   /\ table (ui (step (Tick 1 (3 # 4)) w)) = Some (Num 2)
   /\ in_range (Num 1) (tableMax (ui w)) (Num 2) = false)
  /\ (let w := run [Roll "table"; TableMaxChange (lit "5")] init in
      tableMax (ui w) = Num 5
      /\ unit_sample (9 # 10)
      /\ table (ui (step (Tick 1 (9 # 10)) w)) = Some (Num 28)
      /\ in_range (Num 1) (tableMax (ui w)) (Num 28) = false).
Proof.
  cbv zeta. repeat split; try reflexivity; discriminate.
Qed.

(** ** The bound a draw samples against *)

(** C10. A draw samples against the bound of the render in which [roll] was
    called: whatever happens after the call (bound changes included), as long
    as the draw's timer is installed its next tick assigns
    [floor(rnd * max) + 1] where [max] is the bound at the time of the call. *)
Theorem tick_samples_captured_bound
    (w0 : World) (ty : string) (evs : list Event) (rnd : Q) :
  let id := next_id w0 in
  let w := run evs (step (Roll ty) w0) in
  rolling (ui w0) = false ->
  is_Some (intervals w !! id) ->
  result_of ty (ui (step (Tick id rnd) w))
  = Some (roll_value rnd (bound_of ty (ui w0))).
Proof.
  intros id w R [c L].
  destruct (draw_closure w0 ty evs c R L) as (T & A & B).
  destruct (tick_writes w id c rnd L) as (Hw & _).
  rewrite T in Hw. rewrite Hw. unfold captured_bound, bound_of.
  now rewrite T, A, B.
Qed.

Lemma tick_samples_captured_bound_witness :
  table (ui (run [Roll "table"; TableMaxChange (lit "5"); Tick 1 (9 # 10)]
                 init))
  = Some (Num 28).
Proof.
  apply (tick_samples_captured_bound init "table"
           [TableMaxChange (lit "5")] (9 # 10)).
  - reflexivity.
  - eexists. reflexivity.
Defined.

(** ** A draw writes only its own result *)

Lemma draw_tick_frame
    (w0 : World) (ty : string) (evs : list Event) (rnd : Q) :
  rolling (ui w0) = false ->
  is_Some (intervals (run evs (step (Roll ty) w0)) !! next_id w0) ->
  other_result_of ty
    (ui (step (Tick (next_id w0) rnd) (run evs (step (Roll ty) w0))))
  = other_result_of ty (ui (run evs (step (Roll ty) w0))).
Proof.
  intros R [c L].
  destruct (draw_closure w0 ty evs c R L) as (T & _).
  destruct (tick_writes _ _ c rnd L) as (_ & Ho & _).
  now rewrite T in Ho.
Qed.

Lemma roll_frame (w : World) (ty : string) :
  table (ui (step (Roll ty) w)) = table (ui w)
  /\ seat (ui (step (Roll ty) w)) = seat (ui w).
Proof.
  destruct (rolling (ui w)) eqn:R.
  - now rewrite step_Roll_rolling.
  - now rewrite step_Roll_idle.
Qed.

(** C6. A draw writes only its own result variable. The call of [roll]
    writes neither result; every tick of a draw started by [roll("table")]
    leaves [seat] as it is, and every tick of a draw started by
    [roll("seat")] leaves [table] as it is. In particular, when
    [roll("table")] is called right after mount (bounds 30 and 10) and its
    timer fires 50 times, then [seat] is still null, [table] is an integer in
    [1, 30], [rolling] is false again and the confetti was fired once. *)
Theorem draw_writes_only_its_result :
  (forall (w : World) (ty : string),
     table (ui (step (Roll ty) w)) = table (ui w)
     /\ seat (ui (step (Roll ty) w)) = seat (ui w))
  /\ (forall (w0 : World) (evs : list Event) (rnd : Q),
        let w := run evs (step (Roll "table") w0) in
        rolling (ui w0) = false ->
        is_Some (intervals w !! next_id w0) ->
        seat (ui (step (Tick (next_id w0) rnd) w)) = seat (ui w))
  /\ (forall (w0 : World) (evs : list Event) (rnd : Q),
        let w := run evs (step (Roll "seat") w0) in
        rolling (ui w0) = false ->
        is_Some (intervals w !! next_id w0) ->
        table (ui (step (Tick (next_id w0) rnd) w)) = table (ui w))
  /\ (forall rs : list Q,
        List.length rs = 50%nat ->
        Forall unit_sample rs ->
        let w := run (Roll "table" :: List.map (Tick 1) rs) init in
        seat (ui w) = None
        /\ (exists v : Z,
              table (ui w) = Some (Num (inject_Z v)) /\ (1 <= v <= 30)%Z)
        /\ rolling (ui w) = false
        /\ count is_confetti (log w) = 1%nat).
Proof.
  split; [exact roll_frame |].
  split; [intros w0 evs rnd w R L; exact (draw_tick_frame w0 "table" evs rnd R L) |].
  split; [intros w0 evs rnd w R L; exact (draw_tick_frame w0 "seat" evs rnd R L) |].
  intros rs Hlen Hrs w.
  set (c0 := mkClosure "table" (Num 30) (Num 10) FLASH_COUNT).
  set (w1 := step (Roll "table") init).
  assert (L1 : intervals w1 !! 1%nat = Some c0) by reflexivity.
  split.
  { subst w. cbn [run]. fold w1.
    exact (ticks_keep_other rs w1 1%nat c0 L1). }
  destruct (exists_last (l := rs)) as (rs' & r & ->).
  { intros ->. discriminate Hlen. }
  rewrite length_app in Hlen. cbn [List.length] in Hlen.
  apply Forall_app in Hrs as [_ Hr].
  apply Forall_inv in Hr.
  subst w. cbn [run]. fold w1.
  rewrite List.map_app, run_app. cbn [List.map run].
  destruct (draw_in_progress (List.map (Tick 1%nat) rs') w1 1%nat c0)
    as (c & L & T & A & _ & Hf & _ & Lg & _).
  { apply ledger_step, ledger_init. }
  { exact L1. }
  { rewrite ticks_in_map. cbn [c0 flashes]. unfold FLASH_COUNT. lia. }
  rewrite ticks_in_map in Hf, Lg. cbn [c0 type c_tableMax flashes] in T, A, Hf.
  set (w' := run (List.map (Tick 1%nat) rs') w1) in *.
  assert (Hlast : (flashes c <= 1)%Z) by (unfold FLASH_COUNT in Hf; lia).
  destruct (tick_writes w' 1%nat c r L) as (Hw & _).
  rewrite T in Hw. unfold captured_bound, result_of in Hw.
  rewrite T, A, !String.eqb_refl in Hw.
  destruct (roll_value_integral r 30 30 Hr) as (v & Hv & Hb);
    [reflexivity | lia |].
  split.
  { exists v. rewrite Hw, Hv. auto. }
  rewrite (step_Tick_last w' 1%nat r c L Hlast). cbn [ui log].
  split; [reflexivity |].
  rewrite Lg, !count_app.
  rewrite (count_repeat_other is_confetti (Fired 1)) by reflexivity.
  reflexivity.
Qed.

Lemma draw_writes_only_its_result_witness :
  let w := run [Reset; Roll "seat"; SeatMaxChange (lit "3")] init in
  table (ui (step (Tick 1 (1 # 2)) w)) = table (ui w).
Proof.
  apply (proj1 (proj2 (proj2 draw_writes_only_its_result))
           (run [Reset] init) [SeatMaxChange (lit "3")] (1 # 2)).
  - reflexivity.
  - eexists. reflexivity.
Defined.

(** ** Where the bound is clamped *)

Lemma bound_wf_max (x : number) : bound_wf (Math_max [Num 1; x]).
Proof.
  destruct x as [q | | |].
  - right. apply Math_max_1_ge. discriminate.
  - left. reflexivity.
  - right. reflexivity.
  - right. reflexivity.
Qed.

Lemma bounds_wf_init : bounds_wf init.
Proof.
  split; [right; reflexivity |]. split; [right; reflexivity |].
  intros id c L. cbn [init intervals] in L.
  rewrite lookup_empty in L. discriminate.
Qed.

Lemma tick_closures
    (w : World) (id : nat) (c : Closure) (rnd : Q) (id' : nat) (c' : Closure) :
  intervals w !! id = Some c ->
  intervals (step (Tick id rnd) w) !! id' = Some c' ->
  exists c0, intervals w !! id' = Some c0
             /\ c_tableMax c' = c_tableMax c0
             /\ c_seatMax c' = c_seatMax c0.
Proof.
  intros L L'.
  destruct (Z_lt_le_dec 1 (flashes c)) as [Hf | Hf].
  - rewrite (step_Tick_more w id rnd c L Hf) in L'. cbn [intervals] in L'.
    destruct (decide (id = id')) as [<- | Hne].
    + rewrite lookup_alter_eq, L in L'. cbn in L'. injection L' as <-. eauto.
    + rewrite lookup_alter_ne in L' by assumption. eauto.
  - rewrite (step_Tick_last w id rnd c L Hf) in L'. cbn [intervals] in L'.
    destruct (decide (id = id')) as [<- | Hne].
    + rewrite lookup_delete_eq in L'. discriminate.
    + rewrite lookup_delete_ne, lookup_alter_ne in L' by assumption. eauto.
Qed.

Lemma bounds_wf_step (e : Event) (w : World) :
  bounds_wf w -> bounds_wf (step e w).
Proof.
  intros (Ht & Hs & Hc).
  destruct e as [ty | | v | v | id rnd].
  - destruct (rolling (ui w)) eqn:R.
    { rewrite step_Roll_rolling by assumption. exact (conj Ht (conj Hs Hc)). }
    rewrite step_Roll_idle by assumption.
    split; [exact Ht |]. split; [exact Hs |].
    cbn [intervals]. intros id c L.
    apply lookup_insert_Some in L as [[_ <-] | [_ L]]; [auto |].
    now apply (Hc id).
  - exact (conj Ht (conj Hs Hc)).
  - rewrite step_TableMaxChange.
    split; [apply bound_wf_max |]. split; assumption.
  - rewrite step_SeatMaxChange.
    split; [exact Ht |]. split; [apply bound_wf_max | assumption].
  - destruct (intervals w !! id) as [c |] eqn:L.
    2:{ rewrite step_Tick_none by assumption. exact (conj Ht (conj Hs Hc)). }
    destruct (tick_writes w id c rnd L) as (_ & _ & Bt & Bs).
    cbv zeta in Bt, Bs.
    split; [now rewrite Bt |]. split; [now rewrite Bs |].
    intros id' c' L'.
    destruct (tick_closures w id c rnd id' c' L L') as (c0 & L0 & A & B).
    rewrite A, B. now apply (Hc id').
Qed.

Lemma bounds_wf_run (evs : list Event) (w : World) :
  bounds_wf w -> bounds_wf (run evs w).
Proof.
  revert w. induction evs as [| e evs IH]; intros w Hw; cbn [run].
  - exact Hw.
  - apply IH. now apply bounds_wf_step.
Qed.

(** The claim as first stated fails: the callback does not clamp. Run with
    a captured bound of -5 and the sample 0.5 it assigns -2, outside the
    range [1, 1] a clamped bound would give; and for the input "abc" the
    editor stores NaN, and a tick of a draw started then assigns NaN. *)
Lemma tick_does_not_clamp :
  unit_sample (1 # 2)
  /\ js_lt (Num (-5)) (Num 1) = true
  /\ table (ui (step (Tick 1 (1 # 2)) (rolling_with_bound (Num (-5)))))
     = Some (Num (-2))
  /\ in_range (Num 1) (Math_max [Num 1; Num (-5)]) (Num (-2)) = false
  /\ table (ui (run [TableMaxChange (lit "abc"); Roll "table";
                     Tick 1 (1 # 2)] init))
     = Some NaN.
Proof.
  repeat split; try reflexivity. discriminate.
Qed.

(** C7 (amended). The callback samples against the captured bound as it
    is; the clamp is in the bound editors. As they store [Math.max(1, x)],
    every bound a timer of the mounted page has captured is NaN or at least
    1, and when it is a finite number the assigned value is an integer
    between 1 and the bound rounded up. *)
Theorem tick_bound_clamped_by_editors
    (evs : list Event) (id : nat) (c : Closure) (rnd : Q) :
  let w := run evs init in
  intervals w !! id = Some c ->
  unit_sample rnd ->
  result_of (type c) (ui (step (Tick id rnd) w))
  = Some (roll_value rnd (captured_bound c))
  /\ bound_wf (captured_bound c)
  /\ (forall q : Q, captured_bound c = Num q ->
        (1 <= q)%Q
        /\ exists v : Z,
             result_of (type c) (ui (step (Tick id rnd) w))
             = Some (Num (inject_Z v))
             /\ (1 <= v <= Qceiling q)%Z).
Proof.
  intros w L Hr.
  destruct (tick_writes w id c rnd L) as (Hw & _).
  destruct (bounds_wf_run evs init bounds_wf_init) as (_ & _ & Hc).
  destruct (Hc id c L) as (Wt & Ws).
  assert (Wc : bound_wf (captured_bound c))
    by (unfold captured_bound; destruct (String.eqb (type c) "table");
        assumption).
  split; [exact Hw |]. split; [exact Wc |].
  intros q Hq. rewrite Hq in Wc.
  assert (H1 : (1 <= q)%Q).
  { destruct Wc as [Wc | Wc]; [discriminate |]. now apply Qle_bool_iff. }
  split; [exact H1 |].
  destruct (roll_value_ceiling rnd q Hr H1) as (v & Hv & Hb).
  exists v. rewrite Hw, Hq, Hv. auto.
Qed.

Lemma tick_bound_clamped_by_editors_witness :
  exists v : Z,
    seat (ui (run [SeatMaxChange (lit "-4"); Roll "seat"; Tick 1 (1 # 2)] init))
    = Some (Num (inject_Z v))
    /\ (1 <= v <= 1)%Z.
Proof.
  destruct (tick_bound_clamped_by_editors
              [SeatMaxChange (lit "-4"); Roll "seat"] 1%nat
              (mkClosure "seat" (Num 30) (Num 1) 50) (1 # 2))
    as (_ & _ & H).
  - reflexivity.
  - apply unit_sample_dec_true. reflexivity.
  - destruct (H 1%Q eq_refl) as (_ & v & Hv & Hb).
    exists v. split; [exact Hv | exact Hb].
Defined.

(** ** The counter of a running draw *)

Lemma flashes_inv_init : flashes_inv init.
Proof.
  intros id c L. cbn [init intervals] in L.
  rewrite lookup_empty in L. discriminate.
Qed.

Lemma flashes_inv_step (e : Event) (w : World) :
  ledger w -> flashes_inv w -> flashes_inv (step e w).
Proof.
  intros Hw Hf.
  destruct e as [ty | | v | v | id rnd]; try exact Hf.
  - destruct (rolling (ui w)) eqn:R.
    { now rewrite step_Roll_rolling. }
    rewrite step_Roll_idle by assumption.
    intros id c L. cbn [intervals log] in L |- *.
    rewrite count_app. cbn [count is_fired]. rewrite Nat.add_0_r.
    apply lookup_insert_Some in L as [[<- <-] | [_ L]].
    + destruct (ledger_fresh w Hw (next_id w) (Nat.le_refl _)) as (_ & F & _).
      rewrite F. cbn [flashes]. unfold FLASH_COUNT. lia.
    + now apply Hf.
  - destruct (intervals w !! id) as [c |] eqn:L.
    2:{ now rewrite step_Tick_none. }
    destruct (Hf id c L) as (Hb & Hc).
    destruct (Z_lt_le_dec 1 (flashes c)) as [H1 | H1].
    + rewrite (step_Tick_more w id rnd c L H1).
      intros id' c' L'. cbn [intervals log] in L' |- *.
      rewrite count_app. cbn [count].
      destruct (decide (id = id')) as [<- | Hne].
      * rewrite lookup_alter_eq, L in L'. cbn in L'. injection L' as <-.
        cbn [with_flashes flashes is_fired]. rewrite Nat.eqb_refl. lia.
      * rewrite lookup_alter_ne in L' by assumption.
        rewrite is_fired_ne by assumption. rewrite !Nat.add_0_r.
        now apply Hf.
    + rewrite (step_Tick_last w id rnd c L H1).
      intros id' c' L'. cbn [intervals log] in L' |- *.
      destruct (decide (id = id')) as [<- | Hne].
      * rewrite lookup_delete_eq in L'. discriminate.
      * rewrite lookup_delete_ne, lookup_alter_ne in L' by assumption.
        rewrite !count_app. cbn [count is_fired].
        apply Nat.eqb_neq in Hne. rewrite Hne, !Nat.add_0_r.
        now apply Hf.
Qed.

Lemma flashes_inv_reachable (evs : list Event) : flashes_inv (run evs init).
Proof.
  assert (H : forall w, ledger w -> flashes_inv w ->
                        flashes_inv (run evs w)).
  { induction evs as [| e evs IH]; intros w Hw Hf; cbn [run].
    - exact Hf.
    - apply IH; [now apply ledger_step | now apply flashes_inv_step]. }
  apply H; [apply ledger_init | apply flashes_inv_init].
Qed.

(** X1. Whatever has happened to the page since mount, the counter
    [flashes] of an installed timer is between 1 and 50, and the timer has
    fired exactly [50 - flashes] times: the test [flashes <= 0] is only ever
    met with [flashes = 0], and a counter below zero never occurs. *)
Theorem installed_timer_flashes
    (evs : list Event) (id : nat) (c : Closure) :
  intervals (run evs init) !! id = Some c ->
  (1 <= flashes c <= FLASH_COUNT)%Z
  /\ Z.of_nat (count (is_fired id) (log (run evs init)))
     = (FLASH_COUNT - flashes c)%Z.
Proof. intros L. now apply (flashes_inv_reachable evs). Qed.

Lemma installed_timer_flashes_witness :
  (1 <= 48 <= FLASH_COUNT)%Z
  /\ Z.of_nat (count (is_fired 1)
                 (log (run [Roll "seat"; Tick 1 0; Reset; Tick 1 (1 # 2)]
                           init)))
     = (FLASH_COUNT - 48)%Z.
Proof.
  apply (installed_timer_flashes
           [Roll "seat"; Tick 1 0; Reset; Tick 1 (1 # 2)] 1%nat
           (mkClosure "seat" (Num 30) (Num 10) 48)).
  reflexivity.
Defined.

(** X2. No state of the page is stuck: whenever [rolling] is true there is
    exactly one installed timer, and when it fires as often as its counter
    says (with any samples), [rolling] is false again, no timer is left and
    the confetti has been fired once more. *)
Theorem running_draw_completes (evs : list Event) :
  let w := run evs init in
  rolling (ui w) = true ->
  exists id c,
    intervals w = {[ id := c ]}
    /\ forall rs : list Q,
         List.length rs = Z.to_nat (flashes c) ->
         let w' := run (List.map (Tick id) rs) w in
         rolling (ui w') = false
         /\ intervals w' = ∅
         /\ count is_confetti (log w') = S (count is_confetti (log w)).
Proof.
  intros w R.
  pose proof (ledger_reachable evs) as Hw. fold w in Hw.
  pose proof (ledger_single w Hw) as S1. unfold single_timer in S1.
  rewrite R in S1. destruct S1 as (id & c & S1).
  exists id, c. split; [exact S1 |].
  assert (L : intervals w !! id = Some c)
    by (rewrite S1; apply lookup_singleton_eq).
  destruct (flashes_inv_reachable evs id c L) as (Hb & _).
  intros rs Hlen w'.
  destruct (exists_last (l := rs)) as (rs' & r & ->).
  { intros ->. cbn in Hlen. lia. }
  rewrite length_app in Hlen. cbn [List.length] in Hlen.
  subst w'. rewrite List.map_app, run_app. cbn [List.map run].
  destruct (draw_in_progress (List.map (Tick id) rs') w id c Hw L)
    as (c' & L' & _ & _ & _ & Hf & _ & Lg & _).
  { rewrite ticks_in_map. lia. }
  rewrite ticks_in_map in Hf, Lg.
  pose proof (ledger_run (List.map (Tick id) rs') w Hw) as Hw'.
  set (w1 := run (List.map (Tick id) rs') w) in *.
  destruct (ledger_installed_only w1 id c' Hw' L') as (_ & S2).
  assert (Hlast : (flashes c' <= 1)%Z) by lia.
  rewrite (step_Tick_last w1 id r c' L' Hlast). cbn [ui intervals log].
  split; [reflexivity |]. split.
  - now rewrite S2, alter_singleton_eq, delete_singleton_eq.
  - rewrite Lg, !count_app.
    rewrite (count_repeat_other is_confetti (Fired id)) by reflexivity.
    cbn [count is_confetti]. lia.
Qed.

Lemma running_draw_completes_witness :
  exists id c,
    intervals (run [Roll "table"; Tick 1 0] init) = {[ id := c ]}
    /\ forall rs : list Q,
         List.length rs = Z.to_nat (flashes c) ->
         let w' := run (List.map (Tick id) rs)
                       (run [Roll "table"; Tick 1 0] init) in
         rolling (ui w') = false
         /\ intervals w' = ∅
         /\ count is_confetti (log w')
            = S (count is_confetti (log (run [Roll "table"; Tick 1 0] init))).
Proof.
  apply (running_draw_completes [Roll "table"; Tick 1 0]). reflexivity.
Defined.

(** ** Invariants of the bounds and of the results *)

Lemma all_bounds_ge_1_init : all_bounds_ge_1 init.
Proof.
  split; [split; reflexivity |].
  intros id c L. cbn [init intervals] in L.
  rewrite lookup_empty in L. discriminate.
Qed.

Lemma all_bounds_ge_1_step (e : Event) (w : World) :
  input_not_NaN e -> all_bounds_ge_1 w -> all_bounds_ge_1 (step e w).
Proof.
  intros He ([Ht Hs] & Hc).
  destruct e as [ty | | v | v | id rnd].
  - destruct (rolling (ui w)) eqn:R.
    { rewrite step_Roll_rolling by assumption. exact (conj (conj Ht Hs) Hc). }
    rewrite step_Roll_idle by assumption.
    split; [exact (conj Ht Hs) |].
    cbn [intervals]. intros id c L.
    apply lookup_insert_Some in L as [[_ <-] | [_ L]]; [auto |].
    now apply (Hc id).
  - exact (conj (conj Ht Hs) Hc).
  - rewrite step_TableMaxChange.
    split; [| exact Hc]. split; [| exact Hs].
    cbn [ui tableMax]. now apply Math_max_1_ge.
  - rewrite step_SeatMaxChange.
    split; [| exact Hc]. split; [exact Ht |].
    cbn [ui seatMax]. now apply Math_max_1_ge.
  - destruct (intervals w !! id) as [c |] eqn:L.
    2:{ rewrite step_Tick_none by assumption. exact (conj (conj Ht Hs) Hc). }
    destruct (tick_writes w id c rnd L) as (_ & _ & Bt & Bs).
    cbv zeta in Bt, Bs.
    split; [split; [now rewrite Bt | now rewrite Bs] |].
    intros id' c' L'.
    destruct (tick_closures w id c rnd id' c' L L') as (c0 & L0 & A & B).
    rewrite A, B. now apply (Hc id').
Qed.

(** X3. As long as no text entered into a bound editor coerces to NaN,
    both bounds are at least 1 in every state of the page, and so is every
    bound a running draw has captured -- whatever else happens. *)
Theorem bounds_stay_at_least_1 (evs : list Event) :
  Forall input_not_NaN evs ->
  bounds_ok (ui (run evs init))
  /\ forall id c, intervals (run evs init) !! id = Some c ->
       js_ge (c_tableMax c) (Num 1) = true
       /\ js_ge (c_seatMax c) (Num 1) = true.
Proof.
  intros H. change (all_bounds_ge_1 (run evs init)).
  assert (G : forall w, all_bounds_ge_1 w -> all_bounds_ge_1 (run evs w)).
  { induction H as [| e evs He _ IH]; intros w Hw; cbn [run].
    - exact Hw.
    - apply IH. now apply all_bounds_ge_1_step. }
  apply G, all_bounds_ge_1_init.
Qed.

Lemma bounds_stay_at_least_1_witness :
  bounds_ok (ui (run [TableMaxChange (lit "-3"); Roll "seat";
                      SeatMaxChange (lit " 0x10 "); Tick 1 (1 # 2)] init)).
Proof.
  refine (proj1 (bounds_stay_at_least_1
                   [TableMaxChange (lit "-3"); Roll "seat";
                    SeatMaxChange (lit " 0x10 "); Tick 1 (1 # 2)] _)).
  repeat constructor; vm_compute; discriminate.
Defined.

Lemma finite_bound_max (x : number) :
  is_finite x = true -> finite_bound (Math_max [Num 1; x]).
Proof.
  destruct x as [q | | |]; try discriminate. intros _.
  exists (Qmax 1 q). split; [apply Math_max_1_Num | apply Q.le_max_l].
Qed.

Lemma tidy_init : tidy init.
Proof.
  split; [exists 30%Q; split; [reflexivity | discriminate] |].
  split; [exists 10%Q; split; [reflexivity | discriminate] |].
  split; [| split; exact I].
  intros id c L. cbn [init intervals] in L.
  rewrite lookup_empty in L. discriminate.
Qed.

Lemma finite_bound_captured (c : Closure) :
  finite_bound (c_tableMax c) -> finite_bound (c_seatMax c) ->
  finite_bound (captured_bound c).
Proof.
  intros Ht Hs. unfold captured_bound.
  now destruct (String.eqb (type c) "table").
Qed.

Lemma tidy_step (e : Event) (w : World) :
  well_behaved e -> tidy w -> tidy (step e w).
Proof.
  intros He (Ht & Hs & Hc & Rt & Rs).
  destruct e as [ty | | v | v | id rnd].
  - destruct (rolling (ui w)) eqn:R.
    { rewrite step_Roll_rolling by assumption.
      exact (conj Ht (conj Hs (conj Hc (conj Rt Rs)))). }
    rewrite step_Roll_idle by assumption.
    split; [exact Ht |]. split; [exact Hs |]. split; [| split; assumption].
    cbn [intervals]. intros id c L.
    apply lookup_insert_Some in L as [[_ <-] | [_ L]]; [auto |].
    now apply (Hc id).
  - split; [exact Ht |]. split; [exact Hs |]. split; [exact Hc |].
    split; exact I.
  - rewrite step_TableMaxChange.
    split; [now apply finite_bound_max |].
    split; [exact Hs |]. split; [exact Hc |]. split; assumption.
  - rewrite step_SeatMaxChange.
    split; [exact Ht |]. split; [now apply finite_bound_max |].
    split; [exact Hc |]. split; assumption.
  - destruct (intervals w !! id) as [c |] eqn:L.
    2:{ rewrite step_Tick_none by assumption.
        exact (conj Ht (conj Hs (conj Hc (conj Rt Rs)))). }
    destruct (tick_writes w id c rnd L) as (Hr & Ho & Bt & Bs).
    cbv zeta in Hr, Ho, Bt, Bs.
    split; [now rewrite Bt |]. split; [now rewrite Bs |].
    split.
    { intros id' c' L'.
      destruct (tick_closures w id c rnd id' c' L L') as (c0 & L0 & A & B).
      rewrite A, B. now apply (Hc id'). }
    destruct (Hc id c L) as (Ct & Cs).
    destruct (finite_bound_captured c Ct Cs) as (q & Hq & Hq1).
    destruct (roll_value_ceiling rnd q He Hq1) as (v & Hv & Hb).
    rewrite Hq, Hv in Hr.
    assert (P : result_ok (Some (Num (inject_Z v))))
      by (exists v; split; [reflexivity | lia]).
    unfold result_of, other_result_of in Hr, Ho.
    destruct (String.eqb (type c) "table").
    + rewrite Hr, Ho. split; assumption.
    + rewrite Hr, Ho. split; assumption.
Qed.

(** X4. When every text entered into a bound editor coerces to a finite
    number and every sample of [Math.random()] is in [0, 1), then in every
    state of the page each of [table] and [seat] is either null or a positive
    integer, each bound is a finite number of at least 1, and so is each
    bound a running draw has captured. *)
Theorem results_are_positive_integers (evs : list Event) :
  Forall well_behaved evs ->
  let w := run evs init in
  result_ok (table (ui w)) /\ result_ok (seat (ui w))
  /\ finite_bound (tableMax (ui w)) /\ finite_bound (seatMax (ui w))
  /\ forall id c, intervals w !! id = Some c ->
       finite_bound (c_tableMax c) /\ finite_bound (c_seatMax c).
Proof.
  intros H w.
  assert (G : forall w0, tidy w0 -> tidy (run evs w0)).
  { induction H as [| e evs He _ IH]; intros w0 Hw; cbn [run].
    - exact Hw.
    - apply IH. now apply tidy_step. }
  destruct (G init tidy_init) as (Ht & Hs & Hc & Rt & Rs).
  fold w in Ht, Hs, Hc, Rt, Rs. auto.
Qed.

Lemma results_are_positive_integers_witness :
  result_ok (table (ui (run [TableMaxChange (lit "2.5"); Roll "table";
                             Tick 1 (9 # 10); Reset; Tick 1 (1 # 3)] init))).
Proof.
  apply (results_are_positive_integers
           [TableMaxChange (lit "2.5"); Roll "table";
            Tick 1 (9 # 10); Reset; Tick 1 (1 # 3)]).
  repeat constructor; discriminate.
Defined.

(** ** Bounds that are no finite numbers *)

(** X6. A bound that is no finite number spoils the whole draw. When the
    captured bound is NaN, every tick assigns NaN, whatever the sample; when
    it is Infinity, a tick assigns Infinity, or NaN if the sample is 0. *)
Theorem non_finite_bound_spoils_draw
    (w : World) (id : nat) (c : Closure) (rnd : Q) :
  intervals w !! id = Some c ->
  (captured_bound c = NaN ->
     result_of (type c) (ui (step (Tick id rnd) w)) = Some NaN)
  /\ (captured_bound c = PosInf -> unit_sample rnd ->
        result_of (type c) (ui (step (Tick id rnd) w))
        = Some (if Qeq_bool rnd 0 then NaN else PosInf)).
Proof.
  intros L. destruct (tick_writes w id c rnd L) as (Hw & _).
  split.
  - intros Hc. now rewrite Hw, Hc.
  - intros Hc [H0 H1]. rewrite Hw, Hc. f_equal.
    unfold roll_value, js_mul, Qis_zero, Qsign_pos.
    destruct (Qeq_bool rnd 0) eqn:E; [reflexivity |].
    assert (P : Qlt_bool 0 rnd = true).
    { apply Qlt_bool_iff. apply Qle_lteq in H0 as [H0 | H0]; [exact H0 |].
      apply Qeq_bool_neq in E. exfalso. apply E. now symmetry. }
    now rewrite P.
Qed.

Lemma non_finite_bound_spoils_draw_witness :
  seat (ui (run [SeatMaxChange (lit "ten"); Roll "seat"; Tick 1 (1 # 7)]
                init))
  = Some NaN.
Proof.
  apply (non_finite_bound_spoils_draw
           (run [SeatMaxChange (lit "ten"); Roll "seat"] init) 1%nat
           (mkClosure "seat" (Num 30) NaN 50) (1 # 7)).
  - reflexivity.
  - reflexivity.
Defined.

(** ** Reset and the editors next to a running draw *)

(** X7. Reset does not cancel a running draw: the timer stays installed
    with its closure and [rolling] keeps its value, and the next tick writes
    the draw's result again while the other result stays null. *)
Theorem reset_does_not_cancel
    (w : World) (id : nat) (c : Closure) (rnd : Q) :
  intervals w !! id = Some c ->
  let w1 := step Reset w in
  let w2 := step (Tick id rnd) w1 in
  intervals w1 !! id = Some c
  /\ rolling (ui w1) = rolling (ui w)
  /\ result_of (type c) (ui w2) = Some (roll_value rnd (captured_bound c))
  /\ other_result_of (type c) (ui w2) = None.
Proof.
  intros L w1 w2.
  assert (L1 : intervals w1 !! id = Some c) by exact L.
  destruct (tick_writes w1 id c rnd L1) as (Hr & Ho & _).
  split; [exact L1 |]. split; [reflexivity |]. split; [exact Hr |].
  fold w2 in Ho. rewrite Ho. unfold other_result_of.
  now destruct (String.eqb (type c) "table").
Qed.

Lemma reset_does_not_cancel_witness :
  let w2 := run [Roll "table"; Tick 1 (1 # 2); Reset; Tick 1 (1 # 10)] init in
  table (ui w2) = Some (Num 4) /\ seat (ui w2) = None.
Proof.
  destruct (reset_does_not_cancel (run [Roll "table"; Tick 1 (1 # 2)] init)
              1%nat (mkClosure "table" (Num 30) (Num 10) 49) (1 # 10))
    as (_ & _ & Hr & Ho).
  - reflexivity.
  - split; [exact Hr | exact Ho].
Defined.

(** X8. How the user's actions compose. In either editor the last change
    wins; the two editors commute with each other; reset done twice is reset
    done once; and reset commutes with both editors and with a call of
    [roll]. *)
Theorem user_actions_compose (w : World) :
  (forall v1 v2,
     step (TableMaxChange v2) (step (TableMaxChange v1) w)
     = step (TableMaxChange v2) w)
  /\ (forall v1 v2,
        step (SeatMaxChange v2) (step (SeatMaxChange v1) w)
        = step (SeatMaxChange v2) w)
  /\ (forall a b,
        step (TableMaxChange a) (step (SeatMaxChange b) w)
        = step (SeatMaxChange b) (step (TableMaxChange a) w))
  /\ step Reset (step Reset w) = step Reset w
  /\ (forall a,
        step Reset (step (TableMaxChange a) w)
        = step (TableMaxChange a) (step Reset w))
  /\ (forall b,
        step Reset (step (SeatMaxChange b) w)
        = step (SeatMaxChange b) (step Reset w))
  /\ (forall ty,
        step Reset (step (Roll ty) w) = step (Roll ty) (step Reset w)).
Proof.
  repeat split; try reflexivity.
  intros ty. destruct (rolling (ui w)) eqn:R.
  - rewrite (step_Roll_rolling w ty R).
    now rewrite (step_Roll_rolling (step Reset w) ty R).
  - rewrite (step_Roll_idle w ty R).
    now rewrite (step_Roll_idle (step Reset w) ty R).
Qed.


(** ** The coercion of typed numbers *)

Lemma round_half_even_Z (q : Q) (k : Z) :
  (q == inject_Z k)%Q -> round_half_even q = k.
Proof.
  intros H. unfold round_half_even.
  rewrite (Qfloor_comp _ _ H), Qfloor_Z.
  assert (E : (q - inject_Z k == 0)%Q) by (rewrite H; ring).
  now rewrite (Qcompare_comp _ _ E _ _ (Qeq_refl (1 # 2)%Q)).
Qed.

Lemma Qpower_2_neq_0 (z : Z) : ~ (2 ^ z == 0)%Q.
Proof.
  intros H. pose proof (Qpower_0_lt 2%Q z eq_refl) as P.
  rewrite H in P. discriminate P.
Qed.

(** The exponent found for a positive integer up to [2^53]. *)
Lemma floor_log2_small (n : Z) :
  (1 <= n <= 2 ^ 53)%Z ->
  let e := floor_log2 (inject_Z n) in
  (-1 <= e <= 52)%Z \/ (e = 53%Z /\ n = (2 ^ 53)%Z).
Proof.
  intros Hn e. subst e. unfold floor_log2. cbn [Qnum Qden inject_Z].
  change (Z.log2 1) with 0%Z. rewrite Z.sub_0_r.
  assert (L0 : (0 <= Z.log2 n)%Z) by apply Z.log2_nonneg.
  assert (L1 : (Z.log2 n <= 53)%Z).
  { rewrite <- (Z.log2_pow2 53) by lia. apply Z.log2_le_mono. lia. }
  destruct (Qle_bool _ _); [| left; lia].
  destruct (Z.eq_dec (Z.log2 n) 53%Z) as [E | E]; [| left; lia].
  right. split; [exact E |].
  pose proof (Z.log2_spec n ltac:(lia)) as S. rewrite E in S. lia.
Qed.

(** Rounding leaves the magnitude of an integer up to [2^53] as it is. *)
Lemma binary64_magnitude (n : Z) :
  (1 <= n <= 2 ^ 53)%Z ->
  let ulp := (2 ^ (Z.max (floor_log2 (inject_Z n)) (-1022) - 52))%Q in
  Qred (inject_Z (round_half_even (inject_Z n / ulp)) * ulp)%Q = inject_Z n.
Proof.
  intros Hn ulp.
  assert (K : exists k : Z, (inject_Z n / ulp == inject_Z k)%Q).
  { subst ulp. destruct (floor_log2_small n Hn) as [He | [He Hn53]].
    - set (e := floor_log2 (inject_Z n)) in *.
      rewrite Z.max_l by lia. exists (n * 2 ^ (52 - e))%Z.
      replace (e - 52)%Z with (- (52 - e))%Z by lia.
      rewrite Qpower_opp. unfold Qdiv. rewrite Qinv_involutive.
      rewrite inject_Z_mult, (Zpower_Qpower 2 (52 - e)) by lia.
      reflexivity.
    - rewrite He, Hn53. exists (2 ^ 52)%Z. reflexivity. }
  destruct K as (k & K).
  rewrite (round_half_even_Z _ k K).
  etransitivity; [| apply Qred_inject_Z]. apply Qred_complete.
  rewrite <- K. unfold Qdiv. rewrite <- Qmult_assoc.
  rewrite (Qmult_comm (/ ulp)), Qmult_inv_r by apply Qpower_2_neq_0.
  apply Qmult_1_r.
Qed.

Lemma Qpower_2_1024 : (2 ^ 1024)%Q = inject_Z (2 ^ 1024).
Proof. vm_compute. reflexivity. Qed.

(** An integer of magnitude up to [2^53] is its own Number value. *)
Lemma binary64_integer (z : Z) :
  (Z.abs z <= 2 ^ 53)%Z -> binary64 (inject_Z z) = Num (inject_Z z).
Proof.
  intros Hz. unfold binary64.
  destruct (Z.eq_dec z 0%Z) as [-> | Hne]; [reflexivity |].
  assert (E0 : Qeq_bool (inject_Z z) 0 = false).
  { apply not_true_iff_false. intros H. apply Qeq_bool_iff in H.
    apply Hne. change 0%Q with (inject_Z 0) in H.
    exact (proj1 (inject_Z_injective z 0) H). }
  rewrite E0. cbv zeta.
  change (Qabs (inject_Z z)) with (inject_Z (Z.abs z)).
  rewrite (binary64_magnitude (Z.abs z)) by lia.
  assert (E1 : Qle_bool (2 ^ 1024)%Q (inject_Z (Z.abs z)) = false).
  { apply not_true_iff_false. intros H. apply Qle_bool_iff in H.
    rewrite Qpower_2_1024, <- Zle_Qle in H.
    assert ((2 ^ 53 < 2 ^ 1024)%Z) by (apply Z.pow_lt_mono_r; lia). lia. }
  rewrite E1. f_equal.
  destruct (Z.lt_ge_cases 0 z) as [Hp | Hp].
  - assert (P : Qlt_bool 0 (inject_Z z) = true).
    { apply Qlt_bool_iff. change 0%Q with (inject_Z 0). now rewrite <- Zlt_Qlt. }
    rewrite P. now rewrite Z.abs_eq by lia.
  - assert (P : Qlt_bool 0 (inject_Z z) = false).
    { apply not_true_iff_false. intros H. apply Qlt_bool_iff in H.
      change 0%Q with (inject_Z 0) in H. rewrite <- Zlt_Qlt in H. lia. }
    rewrite P. rewrite Z.abs_neq by lia.
    etransitivity; [| apply (Qred_inject_Z z)]. apply Qred_complete.
    rewrite inject_Z_opp. ring.
Qed.

(** The Number value of a finite literal is never NaN. *)
Lemma to_Number_not_NaN (n : number) : n <> NaN -> to_Number n <> NaN.
Proof.
  destruct n as [q | | |]; try (intros H; exact H). intros _.
  unfold to_Number, binary64.
  destruct (Qeq_bool q 0); [discriminate |]. cbv zeta.
  destruct (Qle_bool _ _); [| discriminate].
  destruct (Qlt_bool 0 q); discriminate.
Qed.

(** ** What the editors store for typed text *)

Lemma digit_enum (d : N) :
  (d < 10)%N -> In d [0; 1; 2; 3; 4; 5; 6; 7; 8; 9]%N.
Proof.
  intros H. cbn [In].
  assert (d = 0 \/ d = 1 \/ d = 2 \/ d = 3 \/ d = 4 \/ d = 5 \/ d = 6
          \/ d = 7 \/ d = 8 \/ d = 9)%N by lia.
  intuition auto.
Qed.

Ltac each_digit H :=
  apply digit_enum in H; cbn [In] in H;
  repeat (destruct H as [<- | H]); [.. | destruct H].

Lemma digit_of_decimal (d : N) :
  (d < 10)%N -> digit_of 10 (48 + d) = Some d.
Proof. intros H. each_digit H; reflexivity. Qed.

Lemma digit_not_white (d : N) :
  (d < 10)%N -> isStrWhiteSpaceChar (48 + d) = false.
Proof. intros H. each_digit H; reflexivity. Qed.

Lemma span_digits_decimal (ds : list N) :
  all_digits ds -> span_digits 10 (decimal ds) = (ds, []).
Proof.
  induction 1 as [| d ds Hd _ IH]; cbn [decimal List.map span_digits].
  - reflexivity.
  - rewrite (digit_of_decimal d Hd). fold (decimal ds). now rewrite IH.
Qed.

Lemma trimString_id (s : jsstring) (c c' : N) (r r' : jsstring) :
  s = c :: r -> rev s = c' :: r' ->
  isStrWhiteSpaceChar c = false -> isStrWhiteSpaceChar c' = false ->
  trimString s = s.
Proof.
  intros Hs Hr Hc Hc'. unfold trimString.
  rewrite Hs. cbn [trimStart]. rewrite Hc, <- Hs, Hr.
  cbn [trimStart]. rewrite Hc', <- Hr. apply rev_involutive.
Qed.

Lemma rev_decimal_head (ds : list N) :
  ds <> [] -> all_digits ds ->
  exists d r, rev (decimal ds) = (48 + d)%N :: r /\ (d < 10)%N.
Proof.
  intros Hne Hd. unfold decimal. rewrite <- map_rev.
  destruct (rev ds) as [| d r] eqn:E.
  - apply (f_equal (@rev N)) in E. rewrite rev_involutive in E.
    now destruct Hne.
  - exists d, (List.map (fun d => (48 + d)%N) r). split; [reflexivity |].
    assert (Hr : all_digits (rev ds)) by now apply Forall_rev.
    rewrite E in Hr. now apply Forall_inv in Hr.
Qed.

Lemma scale10_0 (n : N) : scale10 n 0 = inject_Z (Z.of_N n).
Proof.
  unfold scale10. etransitivity; [| apply Qred_inject_Z].
  apply Qred_complete. cbn [Qpower]. apply Qmult_1_r.
Qed.

Lemma parse_unsigned_decimal_digits (ds : list N) :
  ds <> [] -> all_digits ds ->
  parse_unsigned_decimal (decimal ds)
  = Some (Num (inject_Z (Z.of_N (digits_value 10 ds)))).
Proof.
  intros Hne Hd. unfold parse_unsigned_decimal.
  assert (E : code_eqb (decimal ds) (lit "Infinity") = false).
  { unfold code_eqb. apply bool_decide_eq_false. intros H.
    destruct ds as [| d ds]; [now destruct Hne |].
    apply Forall_inv in Hd.
    assert (I : lit "Infinity" = [73; 110; 102; 105; 110; 105; 116; 121]%N)
      by reflexivity.
    rewrite I in H. cbn [decimal List.map] in H. injection H as H _. lia. }
  rewrite E, (span_digits_decimal ds Hd).
  destruct ds as [| d ds]; [now destruct Hne |].
  cbn [is_nil negb parse_exponent List.length Z.of_nat Z.sub Z.opp].
  now rewrite app_nil_r, scale10_0.
Qed.

Lemma parse_non_decimal_digits (ds : list N) :
  all_digits ds -> parse_non_decimal (decimal ds) = None.
Proof.
  intros Hd. destruct ds as [| d1 [| d2 r]]; try reflexivity.
  apply Forall_inv_tail, Forall_inv in Hd.
  cbn [decimal List.map parse_non_decimal].
  each_digit Hd; now destruct (48 + d1 =? 48)%N.
Qed.

(** A string of decimal digits that denotes an integer up to [2^53]
    coerces to that integer. *)
Lemma ToNumber_decimal (ds : list N) :
  ds <> [] -> all_digits ds ->
  (Z.of_N (digits_value 10 ds) <= 2 ^ 53)%Z ->
  ToNumber (decimal ds) = Num (inject_Z (Z.of_N (digits_value 10 ds))).
Proof.
  intros Hne Hd Hn. unfold ToNumber.
  destruct (rev_decimal_head ds Hne Hd) as (d' & r' & Hr & Hd').
  assert (Eds : exists d t, ds = d :: t)
    by (destruct ds as [| d t]; [now destruct Hne | eauto]).
  destruct Eds as (d & t & Eds).
  assert (Hd0 : (d < 10)%N) by (rewrite Eds in Hd; now apply Forall_inv in Hd).
  assert (Hs : decimal ds = (48 + d)%N :: decimal t)
    by (rewrite Eds; reflexivity).
  rewrite (trimString_id _ _ _ _ _ Hs Hr
             (digit_not_white d Hd0) (digit_not_white d' Hd')).
  rewrite Hs. rewrite <- Hs. rewrite (parse_non_decimal_digits ds Hd).
  assert (P : parse_decimal (decimal ds)
              = parse_unsigned_decimal (decimal ds)).
  { rewrite Hs. unfold parse_decimal. each_digit Hd0; reflexivity. }
  rewrite P, (parse_unsigned_decimal_digits ds Hne Hd). cbn [to_Number].
  apply binary64_integer. lia.
Qed.

(** The same digits after a minus sign coerce to the negated integer. *)
Lemma ToNumber_minus_decimal (ds : list N) :
  ds <> [] -> all_digits ds ->
  (Z.of_N (digits_value 10 ds) <= 2 ^ 53)%Z ->
  ToNumber (45%N :: decimal ds)
  = Num (inject_Z (- Z.of_N (digits_value 10 ds))).
Proof.
  intros Hne Hd Hn. unfold ToNumber.
  destruct (rev_decimal_head ds Hne Hd) as (d' & r' & Hr & Hd').
  assert (Hr' : rev (45%N :: decimal ds) = (48 + d')%N :: (r' ++ [45%N]))
    by (cbn [rev]; now rewrite Hr).
  rewrite (trimString_id _ _ _ _ _ eq_refl Hr' eq_refl
             (digit_not_white d' Hd')).
  assert (N0 : parse_non_decimal (45%N :: decimal ds) = None).
  { destruct ds as [| d ds]; reflexivity. }
  rewrite N0.
  change (parse_decimal (45%N :: decimal ds))
    with (option_map js_neg (parse_unsigned_decimal (decimal ds))).
  rewrite (parse_unsigned_decimal_digits ds Hne Hd).
  cbn [option_map js_neg to_Number].
  change (Qred (- inject_Z (Z.of_N (digits_value 10 ds)))%Q)
    with (Qred (inject_Z (- Z.of_N (digits_value 10 ds)))).
  rewrite (Qred_inject_Z (- Z.of_N (digits_value 10 ds))).
  apply binary64_integer. lia.
Qed.

Lemma Qmax_1_inject_Z (n : Z) : Qmax 1 (inject_Z n) = inject_Z (Z.max 1 n).
Proof.
  unfold Qmax, GenericMinMax.gmax, Qcompare, inject_Z. cbn [Qnum Qden].
  rewrite !Z.mul_1_r.
  destruct (Z.compare_spec 1 n) as [<- | H | H].
  - reflexivity.
  - now rewrite Z.max_r by lia.
  - now rewrite Z.max_l by lia.
Qed.


(** ** Text that passes the number input *)

Lemma is_digit_decimal (d : N) : (d < 10)%N -> View.is_digit (48 + d) = true.
Proof. intros H. each_digit H; reflexivity. Qed.

Lemma skip_digits_decimal (ds : list N) :
  all_digits ds -> View.skip_digits (decimal ds) = [].
Proof.
  induction 1 as [| d ds Hd _ IH]; cbn [decimal List.map View.skip_digits].
  - reflexivity.
  - now rewrite (is_digit_decimal d Hd).
Qed.

(** Digits, with or without a minus sign before them, pass unchanged. *)
Lemma sanitization_decimal (ds : list N) :
  ds <> [] -> all_digits ds ->
  View.value_sanitization "number" (decimal ds) = decimal ds
  /\ View.value_sanitization "number" (45%N :: decimal ds)
     = 45%N :: decimal ds.
Proof.
  intros Hne Hd.
  assert (V : View.valid_unsigned (decimal ds) = true).
  { unfold View.valid_unsigned. rewrite (skip_digits_decimal ds Hd).
    destruct ds as [| d t]; [now destruct Hne |].
    apply Forall_inv in Hd. apply (is_digit_decimal d Hd). }
  unfold View.value_sanitization. cbn [String.eqb Ascii.eqb Bool.eqb].
  unfold View.valid_floating_point_number. split.
  - destruct ds as [| d t]; [now destruct Hne |].
    apply Forall_inv in Hd. cbn [decimal List.map] in V |- *.
    destruct (N.eqb_spec (48 + d) 45) as [E | E]; [lia |].
    now rewrite V.
  - now rewrite N.eqb_refl, V.
Qed.

Lemma digit_of_10 (c : N) :
  digit_of 10 c = if View.is_digit c then Some (c - 48)%N else None.
Proof.
  unfold digit_of, View.is_digit.
  destruct (N.leb_spec 48 c) as [H1 | H1];
    destruct (N.leb_spec c 57) as [H2 | H2]; cbn [andb].
  - destruct (N.ltb_spec (c - 48) 10); [reflexivity | lia].
  - destruct (N.leb_spec 97 c) as [H3 | H3];
      destruct (N.leb_spec c 122) as [H4 | H4]; cbn [andb].
    + destruct (N.ltb_spec (c - 97 + 10) 10); [lia | reflexivity].
    + destruct (N.leb_spec 65 c); destruct (N.leb_spec c 90); cbn [andb];
        try reflexivity; lia.
    + destruct (N.leb_spec 65 c) as [H5 | H5];
        destruct (N.leb_spec c 90) as [H6 | H6]; cbn [andb];
        try reflexivity.
      destruct (N.ltb_spec (c - 65 + 10) 10); [lia | reflexivity].
    + lia.
  - destruct (N.leb_spec 97 c); [lia |]. cbn [andb].
    destruct (N.leb_spec 65 c); [lia |]. reflexivity.
  - lia.
Qed.

(** The digits the parser takes are the digits the validator skips. *)
Lemma span_digits_skip (s : jsstring) :
  snd (span_digits 10 s) = View.skip_digits s
  /\ is_nil (fst (span_digits 10 s)) = negb (View.starts_with_digit s).
Proof.
  induction s as [| c r [IH _]];
    cbn [span_digits View.skip_digits View.starts_with_digit].
  - split; reflexivity.
  - rewrite digit_of_10. destruct (View.is_digit c).
    + destruct (span_digits 10 r) as (ds, rest). split; [exact IH | reflexivity].
    + split; reflexivity.
Qed.

Lemma valid_exponent_parse (s : jsstring) :
  View.valid_exponent s = true -> exists e, parse_exponent s = Some e.
Proof.
  destruct s as [| c r]; [intros _; now exists 0%Z |].
  unfold View.valid_exponent, parse_exponent.
  destruct ((c =? 101) || (c =? 69))%N; [| discriminate]. cbn [andb].
  set (r1 := match r with
             | s0 :: r' => if ((s0 =? 45) || (s0 =? 43))%N then r' else r
             | [] => r
             end).
  assert (E : exists neg,
             match r with
             | s0 :: r' =>
                 if (s0 =? 43)%N then (false, r')
                 else if (s0 =? 45)%N then (true, r') else (false, r)
             | [] => (false, r)
             end = (neg, r1)).
  { subst r1. destruct r as [| s0 r']; [now exists false |].
    destruct (s0 =? 43)%N; destruct (s0 =? 45)%N; cbn [orb]; eauto. }
  destruct E as (neg & ->).
  intros H. apply andb_prop in H as [H1 H2].
  destruct (span_digits_skip r1) as [S1 S2].
  destruct (span_digits 10 r1) as (ds, rest). cbn [fst snd] in S1, S2.
  rewrite H1 in S2. subst rest.
  destruct ds as [| d ds]; [discriminate |].
  destruct (View.skip_digits r1); [eauto | discriminate].
Qed.

(** What the validator accepts, the parser of unsigned decimal literals
    accepts with a finite value. *)
Lemma valid_unsigned_parse (s : jsstring) :
  View.valid_unsigned s = true ->
  exists q, parse_unsigned_decimal s = Some (Num q).
Proof.
  intros V. unfold parse_unsigned_decimal.
  assert (E : code_eqb s (lit "Infinity") = false).
  { unfold code_eqb. apply bool_decide_eq_false. intros ->.
    vm_compute in V. discriminate. }
  rewrite E. unfold View.valid_unsigned in V.
  destruct (span_digits_skip s) as [S1 S2].
  destruct (span_digits 10 s) as (d1, r1). cbn [fst snd] in S1, S2.
  subst r1. destruct (View.skip_digits s) as [| c r].
  - rewrite V in S2. rewrite S2. cbn [negb parse_exponent]. eauto.
  - destruct (c =? 46)%N.
    + apply andb_prop in V as [V1 V2].
      destruct (span_digits_skip r) as [T1 T2].
      destruct (span_digits 10 r) as (d2, r2). cbn [fst snd] in T1, T2.
      subst r2. rewrite V1 in T2. rewrite T2, andb_false_r. cbn [negb].
      destruct (valid_exponent_parse _ V2) as (e & ->). eauto.
    + apply andb_prop in V as [V1 V2]. rewrite V1 in S2. rewrite S2.
      cbn [negb]. destruct (valid_exponent_parse _ V2) as (e & ->). eauto.
Qed.

Lemma valid_parse_decimal (s : jsstring) :
  View.valid_floating_point_number s = true ->
  exists q, parse_decimal s = Some (Num q).
Proof.
  unfold View.valid_floating_point_number, parse_decimal.
  destruct s as [| c r]; [discriminate |].
  destruct (N.eqb_spec c 45) as [-> | H45].
  - intros V. destruct (valid_unsigned_parse r V) as (q & ->).
    cbn [N.eqb Pos.eqb option_map js_neg]. eauto.
  - destruct (N.eqb_spec c 43) as [-> | H43].
    + intros V. unfold View.valid_unsigned in V. cbn in V. discriminate.
    + apply valid_unsigned_parse.
Qed.

Lemma valid_parse_non_decimal (s : jsstring) :
  View.valid_floating_point_number s = true -> parse_non_decimal s = None.
Proof.
  intros V. destruct s as [| z [| p r]]; try reflexivity.
  unfold parse_non_decimal.
  destruct (N.eqb_spec z 48) as [-> | Hz].
  2:{ now destruct (if ((p =? 120) || (p =? 88))%N then Some 16%N
                   else if ((p =? 111) || (p =? 79))%N then Some 8%N
                   else if ((p =? 98) || (p =? 66))%N then Some 2%N
                   else None). }
  destruct (N.eqb_spec p 120) as [-> | ?]; [cbn in V; discriminate |].
  destruct (N.eqb_spec p 88) as [-> | ?]; [cbn in V; discriminate |].
  destruct (N.eqb_spec p 111) as [-> | ?]; [cbn in V; discriminate |].
  destruct (N.eqb_spec p 79) as [-> | ?]; [cbn in V; discriminate |].
  destruct (N.eqb_spec p 98) as [-> | ?]; [cbn in V; discriminate |].
  destruct (N.eqb_spec p 66) as [-> | ?]; [cbn in V; discriminate |].
  reflexivity.
Qed.

Lemma fp_char_not_white (c : N) :
  fp_char c = true -> isStrWhiteSpaceChar c = false.
Proof.
  unfold fp_char. intros H. apply orb_prop in H as [H | H].
  - unfold View.is_digit in H. apply andb_prop in H as [H1 H2].
    apply N.leb_le in H1, H2.
    replace c with (48 + (c - 48))%N by lia.
    apply digit_not_white. lia.
  - repeat (apply orb_prop in H as [H | H]);
      apply N.eqb_eq in H; subst c; reflexivity.
Qed.

Lemma skip_digits_chars (s : jsstring) :
  forallb fp_char (View.skip_digits s) = true -> forallb fp_char s = true.
Proof.
  induction s as [| c r IH]; cbn [View.skip_digits forallb]; [auto |].
  destruct (View.is_digit c) eqn:D; [| auto].
  intros H. unfold fp_char at 1. rewrite D. cbn [orb andb]. now apply IH.
Qed.

Lemma valid_exponent_chars (s : jsstring) :
  View.valid_exponent s = true -> forallb fp_char s = true.
Proof.
  destruct s as [| c r]; [reflexivity |].
  unfold View.valid_exponent. cbn [forallb]. intros H.
  apply andb_prop in H as [Hc H]. apply andb_prop in H as [_ H].
  assert (Fc : fp_char c = true).
  { unfold fp_char. apply orb_prop in Hc as [Hc | Hc];
      rewrite Hc; now rewrite ?orb_true_r. }
  rewrite Fc. cbn [andb].
  destruct r as [| s0 r']; [reflexivity |].
  destruct ((s0 =? 45) || (s0 =? 43))%N eqn:S0.
  - cbn [forallb].
    assert (F0 : fp_char s0 = true).
    { unfold fp_char. apply orb_prop in S0 as [S0 | S0];
        rewrite S0; now rewrite ?orb_true_r. }
    rewrite F0. cbn [andb]. apply skip_digits_chars.
    now destruct (View.skip_digits r').
  - apply skip_digits_chars. now destruct (View.skip_digits (s0 :: r')).
Qed.

Lemma valid_unsigned_chars (s : jsstring) :
  View.valid_unsigned s = true -> forallb fp_char s = true.
Proof.
  unfold View.valid_unsigned. intros V. apply skip_digits_chars.
  destruct (View.skip_digits s) as [| c r]; [reflexivity |].
  destruct (N.eqb_spec c 46) as [-> | H46].
  - apply andb_prop in V as [_ V]. cbn [forallb].
    change (fp_char 46) with true. cbn [andb].
    apply skip_digits_chars. now apply valid_exponent_chars.
  - apply andb_prop in V as [_ V]. now apply valid_exponent_chars.
Qed.

Lemma valid_chars (s : jsstring) :
  View.valid_floating_point_number s = true -> forallb fp_char s = true.
Proof.
  unfold View.valid_floating_point_number.
  destruct s as [| c r]; [reflexivity |].
  destruct (N.eqb_spec c 45) as [-> | H45].
  - intros V. cbn [forallb]. change (fp_char 45) with true.
    now apply valid_unsigned_chars.
  - apply valid_unsigned_chars.
Qed.

Lemma trimStart_head (s : jsstring) :
  (forall c, In c s -> isStrWhiteSpaceChar c = false) -> trimStart s = s.
Proof.
  destruct s as [| c r]; [reflexivity |]. intros H. cbn [trimStart].
  now rewrite (H c (or_introl eq_refl)).
Qed.

Lemma valid_trimString (s : jsstring) :
  View.valid_floating_point_number s = true -> trimString s = s.
Proof.
  intros V. apply valid_chars in V.
  assert (H : forall c, In c s -> isStrWhiteSpaceChar c = false).
  { intros c Hc. apply fp_char_not_white.
    now apply (proj1 (forallb_forall fp_char s) V). }
  unfold trimString. rewrite (trimStart_head s H), trimStart_head.
  - apply rev_involutive.
  - intros c Hc. apply H. now apply in_rev.
Qed.

(** Text that is a valid floating-point number coerces to the Number value
    of a finite literal, hence never to NaN. *)
Lemma valid_ToNumber (s : jsstring) :
  View.valid_floating_point_number s = true ->
  exists q, ToNumber s = binary64 q.
Proof.
  intros V. unfold ToNumber. rewrite (valid_trimString s V).
  destruct (valid_parse_decimal s V) as (q & P).
  pose proof (valid_parse_non_decimal s V) as N0.
  destruct s as [| c r]; [discriminate V |].
  rewrite N0, P. now exists q.
Qed.

Lemma sanitized_not_NaN (text : jsstring) :
  ToNumber (View.value_sanitization "number" text) <> NaN.
Proof.
  unfold View.value_sanitization. cbn [String.eqb Ascii.eqb Bool.eqb].
  destruct (View.valid_floating_point_number text) eqn:V; [| discriminate].
  destruct (valid_ToNumber text V) as (q & ->).
  apply (to_Number_not_NaN (Num q)). discriminate.
Qed.

Lemma sanitized_invalid (text : jsstring) :
  View.valid_floating_point_number text = false ->
  View.value_sanitization "number" text = [].
Proof.
  intros V. unfold View.value_sanitization.
  cbn [String.eqb Ascii.eqb Bool.eqb]. now rewrite V.
Qed.

(** X9. Typing a non-empty string of decimal digits that denotes an
    integer up to [2^53] into a bound field stores that integer, or 1 when
    the digits denote 0; typing the same digits after a minus sign stores 1.
    Such text passes the number input unchanged. *)
Theorem typed_integer_is_stored
    (inherited_text : string -> string) (w : World) (ds : list N) :
  ds <> [] -> all_digits ds ->
  let n := Z.of_N (digits_value 10 ds) in
  (n <= 2 ^ 53)%Z ->
  View.value_sanitization "number" (decimal ds) = decimal ds
  /\ tableMax (ui (View.perform inherited_text
                     (View.TypeTableMax (decimal ds)) w))
     = Num (inject_Z (Z.max 1 n))
  /\ seatMax (ui (View.perform inherited_text
                    (View.TypeSeatMax (decimal ds)) w))
     = Num (inject_Z (Z.max 1 n))
  /\ tableMax (ui (View.perform inherited_text
                     (View.TypeTableMax (45%N :: decimal ds)) w))
     = Num 1
  /\ seatMax (ui (View.perform inherited_text
                    (View.TypeSeatMax (45%N :: decimal ds)) w))
     = Num 1.
Proof.
  intros Hne Hd n Hn.
  destruct (sanitization_decimal ds Hne Hd) as (S1 & S2).
  split; [exact S1 |].
  unfold View.perform, View.change, View.LotteryDrawPage.
  cbn [View.tableMax_input View.seatMax_input View.type View.onChange].
  rewrite S1, S2.
  change (snd (onChange_tableMax ?v w)) with (step (TableMaxChange v) w).
  change (snd (onChange_seatMax ?v w)) with (step (SeatMaxChange v) w).
  rewrite !step_TableMaxChange, !step_SeatMaxChange. cbn [ui tableMax seatMax].
  rewrite (ToNumber_decimal ds Hne Hd Hn), (ToNumber_minus_decimal ds Hne Hd Hn).
  fold n. rewrite !Math_max_1_Num, Qmax_1_inject_Z.
  assert (M : Qmax 1 (inject_Z (- n)) = 1%Q).
  { apply Qmax_1_nonpos. change 0%Q with (inject_Z 0).
    rewrite <- Zle_Qle. subst n. lia. }
  rewrite M. auto.
Qed.

Lemma typed_integer_is_stored_witness :
  tableMax (ui (View.perform (fun _ => "undefined"%string)
                  (View.TypeTableMax (lit "0042")) init)) = Num 42
  /\ seatMax (ui (View.perform (fun _ => "undefined"%string)
                    (View.TypeSeatMax (lit "-0042")) init)) = Num 1.
Proof.
  destruct (typed_integer_is_stored (fun _ => "undefined"%string) init
              [0; 0; 4; 2]%N)
    as (_ & H1 & _ & _ & H4).
  - discriminate.
  - repeat constructor.
  - vm_compute. discriminate.
  - split; [exact H1 | exact H4].
Defined.

(** ** Acting on the rendered page *)

Section Rendered.

Variable inherited_text : string -> string.

Lemma perform_is_step (a : View.Action) (w : World) :
  View.perform inherited_text a w = step (View.event_of a) w.
Proof.
  destruct a as [ | | | text | text | id rnd]; try reflexivity.
  - unfold View.perform, View.click. cbn.
    destruct (rolling (ui w)) eqn:R.
    + now rewrite step_Roll_rolling.
    + reflexivity.
  - unfold View.perform, View.click. cbn.
    destruct (rolling (ui w)) eqn:R.
    + now rewrite step_Roll_rolling.
    + reflexivity.
Qed.

Lemma event_of_not_NaN (a : View.Action) : input_not_NaN (View.event_of a).
Proof.
  destruct a as [ | | | text | text | id rnd]; try exact I;
    apply sanitized_not_NaN.
Qed.

Lemma perform_all_bounds (acts : list View.Action) (w : World) :
  all_bounds_ge_1 w ->
  all_bounds_ge_1 (View.perform_all inherited_text acts w).
Proof.
  revert w. induction acts as [| a acts IH]; intros w Hw;
    cbn [View.perform_all].
  - exact Hw.
  - apply IH. rewrite perform_is_step.
    apply all_bounds_ge_1_step; [apply event_of_not_NaN | exact Hw].
Qed.

(** X10. Text that is no valid floating-point number (letters, padded or
    hexadecimal text, the empty text) reaches the editor as the empty string
    and makes it store exactly 1. So typing never stores NaN: whatever is
    done to the rendered page after mount, both bounds are at least 1, and so
    is every bound a running draw has captured. *)
Theorem typed_text_never_stores_NaN :
  (forall (w : World) (text : jsstring),
     View.valid_floating_point_number text = false ->
     tableMax (ui (View.perform inherited_text (View.TypeTableMax text) w))
     = Num 1
     /\ seatMax (ui (View.perform inherited_text (View.TypeSeatMax text) w))
        = Num 1)
  /\ (forall acts : list View.Action,
        let w := View.perform_all inherited_text acts init in
        bounds_ok (ui w)
        /\ forall id c, intervals w !! id = Some c ->
             js_ge (c_tableMax c) (Num 1) = true
             /\ js_ge (c_seatMax c) (Num 1) = true).
Proof.
  split.
  - intros w text V. rewrite !perform_is_step. cbn [View.event_of].
    rewrite (sanitized_invalid text V).
    rewrite step_TableMaxChange, step_SeatMaxChange. split; reflexivity.
  - intros acts w. exact (perform_all_bounds acts init all_bounds_ge_1_init).
Qed.

(** X11. The page as rendered behaves like its handlers. Going through the
    rendered buttons and inputs (a click on a disabled button is not
    delivered, typed text arrives sanitized) leads to the same state as
    calling the handlers with the sanitized text, for any sequence of actions
    from any state; the reset button is never disabled; and while [rolling]
    is true both draw buttons are disabled and a click on them changes
    nothing. *)
Theorem rendered_page_runs_handlers :
  (forall (acts : list View.Action) (w : World),
     View.perform_all inherited_text acts w
     = run (List.map View.event_of acts) w)
  /\ (forall s : State,
        View.disabled
          (View.reset_button (View.LotteryDrawPage inherited_text s))
        = false
        /\ View.disabled
             (View.table_button (View.LotteryDrawPage inherited_text s))
           = rolling s
        /\ View.disabled
             (View.seat_button (View.LotteryDrawPage inherited_text s))
           = rolling s)
  /\ (forall w : World,
        rolling (ui w) = true ->
        View.perform inherited_text View.ClickTable w = w
        /\ View.perform inherited_text View.ClickSeat w = w).
Proof.
  split; [| split].
  - induction acts as [| a acts IH]; intros w;
      cbn [View.perform_all List.map run].
    + reflexivity.
    + now rewrite perform_is_step, IH.
  - intros s. repeat split.
  - intros w R. rewrite !perform_is_step. cbn [View.event_of].
    now rewrite !step_Roll_rolling.
Qed.

End Rendered.

Lemma typed_text_never_stores_NaN_witness :
  tableMax (ui (View.perform (fun _ => "undefined"%string)
                  (View.TypeTableMax (lit " 12 ")) init)) = Num 1
  /\ seatMax (ui (View.perform (fun _ => "undefined"%string)
                    (View.TypeSeatMax (lit " 12 ")) init)) = Num 1.
Proof.
  apply (proj1 (typed_text_never_stores_NaN (fun _ => "undefined"%string))).
  reflexivity.
Defined.

Lemma rendered_page_runs_handlers_witness :
  let w := run [Roll "seat"] init in
  View.perform (fun _ => "undefined"%string) View.ClickTable w = w.
Proof.
  apply (rendered_page_runs_handlers (fun _ => "undefined"%string)).
  reflexivity.
Defined.
